(** * Fishlet shooting targets: a shallow embedding of [target.cpp]

    The program reads a handful of command-line options, lays out a
    target of concentric rings on one PDF page and draws it through the
    Cairo library.  This development embeds the program as Rocq
    functions and proves properties of the ring layout, of the colour
    selection of outlines and labels, of the caption fraction, of the
    error exits, of what the helper functions put on the page and of
    the ways a run ends.

    Conventions.
    - C++ [int] is [Z].  Signed overflow is undefined behaviour in C++,
      so integer operations are the mathematical ones: what is proved
      of an [int] holds for every run in which no value leaves the
      range of [int].
    - C++ [double] is a type [D] with the operations of the class
      [Double].  Two instances are given: [Q_double], exact rational
      arithmetic (the real-valued reading of every formula), and
      [b64_double], IEEE 754 binary64 as the machine computes it.  A
      statement at [Q] leaves rounding out: where rounding reaches a
      cast or a strict comparison (the radius, the order of the ring
      radii) the statement is made in binary64.
    - Cairo, libc ([getopt], [atof], [atoi]) and the PNG file are
      outside the program; what they answer is read from a record
      [Env], and every Cairo call on the page is recorded, in order, in
      the [canvas] of the program's [world]. *)

From Stdlib Require Import ZArith QArith Qfield Qabs Qminmax Qround Lqa Lia Bool List.
From Stdlib Require Import String Ascii.
From Stdlib Require Import DecimalString.
From Stdlib Require Import PrimFloat FloatOps SpecFloat Uint63.
Import ListNotations.

Set Implicit Arguments.
Local Open Scope Z_scope.

(** ** Numbers *)

Definition int := Z.

(** The operations the program applies to [double] values.  [of_int]
    is the implicit conversion [int -> double], [to_int] the cast
    [(int)x], which truncates toward zero. *)
Class Double (D : Type) : Type := {
  dadd : D -> D -> D;
  dsub : D -> D -> D;
  dmul : D -> D -> D;
  ddiv : D -> D -> D;
  dneg : D -> D;
  dltb : D -> D -> bool;
  deqb : D -> D -> bool;
  of_int : int -> D;
  to_int : D -> int;
  dsqrt : D -> D;
  M_PI : D
}.

Declare Scope double_scope.
Delimit Scope double_scope with D.
Infix "+" := dadd : double_scope.
Infix "-" := dsub : double_scope.
Infix "*" := dmul : double_scope.
Infix "/" := ddiv : double_scope.
Notation "- x" := (dneg x) : double_scope.

(** A decimal literal of the source: [dec m e] is [m / 10^e], so
    [dec 5 1] is [0.5] and [dec 25 2] is [0.25].  Both operands are
    small integers, hence exact, and the quotient is correctly rounded
    in binary64: it is the value the compiler gives the literal. *)
Definition dec {D} `{Double D} (m : Z) (e : nat) : D :=
  (of_int m / of_int (10 ^ Z.of_nat e))%D.

(** *** Exact rationals *)

Definition Qltb (a b : Q) : bool :=
  match (a ?= b)%Q with Lt => true | _ => false end.

(** Truncation toward zero, as the cast [(int)] does. *)
Definition Qtrunc (q : Q) : Z := Z.quot (Qnum q) (Zpos (Qden q)).

(** No rational squares to 2: the exact instance takes the root to 52
    binary places.  Only the four decorative eyes use it. *)
Definition Qsqrt (q : Q) : Q :=
  if Qnum q <=? 0 then 0%Q
  else Qmake (Z.sqrt (Qnum q * 2 ^ 104 / Zpos (Qden q))) (2 ^ 52).

#[export] Instance Q_double : Double Q := {
  dadd := Qplus;
  dsub := Qminus;
  dmul := Qmult;
  ddiv := Qdiv;
  dneg := Qopp;
  dltb := Qltb;
  deqb := Qeq_bool;
  of_int := inject_Z;
  to_int := Qtrunc;
  dsqrt := Qsqrt;
  M_PI := Qmake 884279719003555 (2 ^ 48)
}.

(** *** IEEE 754 binary64 *)

Definition b64_of_int (z : Z) : float :=
  match z with
  | Z0 => PrimFloat.zero
  | Zpos _ => PrimFloat.of_uint63 (Uint63.of_Z z)
  | Zneg _ => PrimFloat.opp (PrimFloat.of_uint63 (Uint63.of_Z (- z)))
  end.

(** The cast of a NaN or an infinity is undefined in C++; it is 0 here. *)
Definition b64_to_int (f : float) : Z :=
  match Prim2SF f with
  | S754_finite s m e =>
      let a := if 0 <=? e then Zpos m * 2 ^ e else Zpos m / 2 ^ (- e) in
      if s then - a else a
  | _ => 0
  end.

#[export] Instance b64_double : Double float := {
  dadd := PrimFloat.add;
  dsub := PrimFloat.sub;
  dmul := PrimFloat.mul;
  ddiv := PrimFloat.div;
  dneg := PrimFloat.opp;
  dltb := PrimFloat.ltb;
  deqb := PrimFloat.eqb;
  of_int := b64_of_int;
  to_int := b64_to_int;
  dsqrt := PrimFloat.sqrt;
  M_PI := 0x1.921fb54442d18p+1%float
}.

(** ** Units and the helper [gcd] *)

Section Units.
Context {D : Type} `{Double D}.

(* double inch_pt(double i) { return i * 72.0; } *)
Definition inch_pt (i : D) : D := (i * of_int 72)%D.

(* double pt_inch(double p) { return p / 72.0; } *)
Definition pt_inch (p : D) : D := (p / of_int 72)%D.
End Units.

(** [gcd] is recursive without a measure the code states; the model
    counts calls down from [fuel], and [None] means the calls did not
    bottom out within it.

    return (a == 0) ? b : (a < b) ? gcd(a, b % a) : gcd(b, a); *)
Fixpoint gcd (fuel : nat) (a b : int) : option int :=
  match fuel with
  | O => None
  | S fuel' =>
      if a =? 0 then Some b
      else if a <? b then gcd fuel' a (Z.rem b a)
      else gcd fuel' b a
  end.

(** ** Ring layout *)

Section RingLayout.
Context {D : Type} `{Double D}.

(* return radius / (rings + 0.5); *)
Definition ring_spacing (radius : D) (rings : int) : D :=
  (radius / (of_int rings + dec 5 1))%D.

(* double rs = ring_spacing(radius, rings);
   return rs / 2 + ring * rs; *)
Definition ring_radius (radius : D) (rings : int) (ring : int) : D :=
  let rs := ring_spacing radius rings in
  (rs / of_int 2 + of_int ring * rs)%D.

(* int radius;
   if (width < height) radius = width / 2 - margin - linew / 2;
   else                radius = height / 2 - margin - linew / 2; *)
Definition target_radius (width height margin linew : D) : int :=
  if dltb width height
  then to_int (width / of_int 2 - margin - linew / of_int 2)%D
  else to_int (height / of_int 2 - margin - linew / of_int 2)%D.
End RingLayout.


(** ** The page, standard error and the outcome of a run *)

Local Open Scope string_scope.

(** The calls the program makes on Cairo, with their arguments: those
    that make and release the PDF surface, its drawing context and the
    image, and every call on the drawing context.  The constructor of
    [fish] measures the image through a context of its own, made and
    released on the spot; that measurement is the answer [png_load]
    gives. *)
Inductive cairo_op (D : Type) : Type :=
| pdf_surface_create (fname : string) (width height : D)
| create
| image_surface_create_from_png (fname : string)
| rectangle (x y w h : D)
| set_source_rgba (r g b a : D)
| set_source_surface (image : string) (x y : D)
| set_line_width (w : D)
| arc (xc yc r angle1 angle2 : D)
| fill
| fill_preserve
| stroke
| paint
| new_path
| save
| restore
| move_to (x y : D)
| show_text (text : string)
| translate (tx ty : D)
| scale (sx sy : D)
| select_font_face (family slant weight : string)
| set_font_size (size : D)
| show_page
| destroy
| surface_destroy (what : string).

Arguments create {D}.
Arguments image_surface_create_from_png {D}.
Arguments fill {D}.
Arguments fill_preserve {D}.
Arguments stroke {D}.
Arguments paint {D}.
Arguments new_path {D}.
Arguments save {D}.
Arguments restore {D}.
Arguments show_text {D}.
Arguments select_font_face {D}.
Arguments show_page {D}.
Arguments destroy {D}.
Arguments surface_destroy {D}.

(** What the program has done so far: the Cairo calls in order and the
    text written to [cerr]. *)
Record world (D : Type) : Type := {
  canvas : list (cairo_op D);
  cerr : string
}.

Definition start {D} : world D := {| canvas := []; cerr := EmptyString |}.

(** How a computation ends: it returns, it calls [exit], an [assert]
    fails, or its recursion is not over when the fuel is. *)
Inductive outcome (A : Type) : Type :=
| Done (a : A)
| Exit (status : int)
| Abort
| NoFuel.

Arguments Exit {A}.
Arguments Abort {A}.
Arguments NoFuel {A}.

Definition prog (D A : Type) : Type := world D -> outcome A * world D.

Definition ret {D A} (a : A) : prog D A := fun w => (Done a, w).

Definition bind {D A B} (c : prog D A) (k : A -> prog D B) : prog D B :=
  fun w =>
    match c w with
    | (Done a, w') => k a w'
    | (Exit s, w') => (Exit s, w')
    | (Abort, w') => (Abort, w')
    | (NoFuel, w') => (NoFuel, w')
    end.

Declare Scope prog_scope.
Delimit Scope prog_scope with prog.
Notation "x <- c ;; k" := (bind c (fun x => k))
  (at level 61, c at next level, right associativity) : prog_scope.
Notation "c ;; k" := (bind c (fun _ => k))
  (at level 61, right associativity) : prog_scope.
Local Open Scope prog_scope.

(** A Cairo call on the page. *)
Definition emit {D} (op : cairo_op D) : prog D unit :=
  fun w => (Done tt, {| canvas := canvas w ++ [op]; cerr := cerr w |}).

(** [cerr << s] *)
Definition eprint {D} (s : string) : prog D unit :=
  fun w => (Done tt, {| canvas := canvas w; cerr := cerr w ++ s |}).

(** [exit(status)] *)
Definition exit {D A} (status : int) : prog D A := fun w => (Exit status, w).

(** The Cairo calls made so far: Cairo's answers depend on them. *)
Definition history {D} : prog D (list (cairo_op D)) :=
  fun w => (Done (canvas w), w).

Fixpoint for_each {D A} (l : list A) (body : A -> prog D unit) : prog D unit :=
  match l with
  | [] => ret tt
  | a :: l' => body a ;; for_each l' body
  end.

(** The values [lo, lo+1, ..., hi] a loop
    [for (int i = lo; i <= hi; i++)] runs through. *)
Definition int_range (lo hi : int) : list int :=
  map (fun i => lo + Z.of_nat i) (seq 0 (Z.to_nat (hi + 1 - lo))).

(** ** What lies outside the program *)

(** The answers of libc, Cairo and the file system, and the one value
    the program reads without having set it.  A Cairo status is [None]
    for [CAIRO_STATUS_SUCCESS] and otherwise the text
    [cairo_status_to_string] gives. *)
Record Env (D : Type) : Type := {
  atof : string -> D;
  atoi : string -> int;
  (* cairo_status(cr), after the calls made so far *)
  cairo_status : list (cairo_op D) -> option string;
  (* cairo_text_extents(cr, text): te.width and te.height *)
  text_extents : list (cairo_op D) -> string -> D * D;
  (* loading a PNG: the failure status, or the clip extents
     ulx, uly, lrx, lry of the image *)
  png_load : string -> string + (D * D * D * D);
  (* [bool opt_bg;] has no initializer: main starts with whatever the
     stack holds *)
  opt_bg_indeterminate : bool
}.

(** ** Strings *)

(* strchr(s, c): the suffix of s from the first c on, NULL if none *)
Fixpoint strchr (s : string) (c : ascii) : option string :=
  match s with
  | EmptyString => None
  | String a s' => if Ascii.eqb a c then Some s else strchr s' c
  end.

(* s + 1, for a non-empty C string s *)
Definition next_char (s : string) : string :=
  match s with
  | EmptyString => EmptyString
  | String _ s' => s'
  end.

(* ostream << int *)
Definition show_int (z : int) : string := NilZero.string_of_int (Z.to_int z).

Definition dquote : string := String "034"%char EmptyString.

(** ** The program *)

Definition nl : string := String "010"%char EmptyString.

Definition DEFAULT_GEOM : string := "8.5x11".
Definition DEFAULT_FNAME : string := "target.pdf".
Definition DEFAULT_RINGS : int := 8.
Definition DEFAULT_ORINGS : int := 2.
Definition DEFAULT_IRINGS : int := 3.
Definition FISH_IMAGE : string := "koi.png".

Definition ALIGN_H_CENTER : Z := 1.
Definition ALIGN_H_LEFT : Z := 2.
Definition ALIGN_H_RIGHT : Z := 4.
Definition ALIGN_V_CENTER : Z := 8.
Definition ALIGN_V_TOP : Z := 16.
Definition ALIGN_V_BOTTOM : Z := 32.

(** The text [usage] writes; [cerr << 0.25] prints [0.25] and
    [cerr << 8] prints [8]. *)
Definition usage_text : string :=
  "Usage: target [options]" ++ nl ++
  "   -s WxH       Set size in inches (" ++ DEFAULT_GEOM ++ ")" ++ nl ++
  "   -m MARGIN    Set page margin (" ++ "0.25" ++ ")" ++ nl ++
  "   -o FNAME     Set output filename (" ++ DEFAULT_FNAME ++ ")" ++ nl ++
  "   -r RINGS     Set number of rings (" ++ show_int DEFAULT_RINGS ++ ")" ++ nl ++
  "   -I IRINGS    Set number of inner rings (" ++ show_int DEFAULT_IRINGS ++ ")" ++ nl ++
  "   -O ORINGS    Set number of outer rings (" ++ show_int DEFAULT_ORINGS ++ ")" ++ nl ++
  "   -l LINEW     Set line width (" ++ "0.05" ++ ")" ++ nl ++
  "   -b           Use yellowish background color" ++ nl.

(** The options as [main] holds them in its locals. *)
Record options (D : Type) : Type := {
  opt_geom : string;
  opt_margin : D;
  opt_fname : string;
  opt_rings : int;
  opt_irings : int;
  opt_orings : int;
  opt_linew : D;
  opt_bg : bool
}.

(* struct fish: the image, its size in pixels, the width to draw it at *)
Record fish (D : Type) : Type := {
  im : string;
  im_w : D;
  im_h : D;
  fish_width : D
}.

Section Program.
Context {D : Type} `{Double D}.

Definition DEFAULT_MARGIN : D := dec 25 2.
Definition DEFAULT_LINEW : D := dec 5 2.

Definition d0 : D := of_int 0.
Definition d1 : D := of_int 1.
Definition d2 : D := of_int 2.

(* void usage() { cerr << ...; exit(2); } *)
Definition usage {A} : prog D A :=
  eprint usage_text ;; exit 2.

Definition has_flag (align flag : Z) : bool := negb (Z.land align flag =? 0)%Z.

(* void aligned_text(cairo_t *cr, double x, double y,
                     unsigned int align, const char *text) *)
Definition aligned_text (env : Env D) (x y : D) (align : Z) (text : string)
  : prog D unit :=
  h <- history ;;
  let te := text_extents env h text in
  let te_width := fst te in
  let te_height := snd te in
  let dx := if has_flag align ALIGN_H_CENTER then (- te_width / d2)%D
            else if has_flag align ALIGN_H_RIGHT then (- te_width)%D
            else d0 in
  let dy := if has_flag align ALIGN_V_CENTER then (te_height / d2)%D
            else if has_flag align ALIGN_V_TOP then te_height
            else d0 in
  emit save ;;
  emit (move_to (x + dx) (y + dy))%D ;;
  emit (show_text text) ;;
  emit restore.

(* fish::fish() *)
Definition fish_new (env : Env D) : prog D (fish D) :=
  emit (image_surface_create_from_png FISH_IMAGE) ;;
  match png_load env FISH_IMAGE with
  | inl status =>
      eprint ("Could not load image " ++ FISH_IMAGE ++ ": " ++ status ++ nl) ;;
      exit 1
  | inr (ulx, uly, lrx, lry) =>
      ret {| im := FISH_IMAGE;
             im_w := (lrx - ulx)%D;
             im_h := (lry - uly)%D;
             fish_width := d0 |}
  end.

(* fish::~fish() *)
Definition fish_delete (f : fish D) : prog D unit :=
  emit (surface_destroy (im f)).

(* void width_set(double w) { width = w; } *)
Definition width_set (f : fish D) (w : D) : fish D :=
  {| im := im f; im_w := im_w f; im_h := im_h f; fish_width := w |}.

(* double height_get() { return width * im_h / im_w; } *)
Definition height_get (f : fish D) : D :=
  (fish_width f * im_h f / im_w f)%D.

(* void put(cairo_t *cr, double x, double y) *)
Definition put (f : fish D) (x y : D) : prog D unit :=
  if deqb (fish_width f) d0 then (fun w => (Abort, w))   (* assert(width != 0.0) *)
  else
    let s := (fish_width f / im_w f)%D in
    emit save ;;
    emit (translate x y) ;;
    emit (scale s s) ;;
    emit (set_source_surface (im f) d0 d0) ;;
    emit paint ;;
    emit restore.

(* void target_eye(cairo_t *cr, double x, double y, double r) *)
Definition target_eye (x y r : D) : prog D unit :=
  emit (set_source_rgba d1 d1 d1 d1) ;;
  emit (arc x y r d0 (d2 * M_PI))%D ;;
  emit fill_preserve ;;
  emit (set_source_rgba d0 d0 d0 d1) ;;
  emit stroke.

(* void check_status(cairo_t *cr) *)
Definition check_status (env : Env D) : prog D unit :=
  h <- history ;;
  match cairo_status env h with
  | Some msg => eprint ("Operation failed: " ++ msg ++ nl) ;; exit 1
  | None => ret tt
  end.
End Program.

(** *** [main] *)

Section Main.
Context {D : Type} `{Double D}.
Variable env : Env D.

(** The locals of [main] before the option loop.  Seven have
    initializers; [opt_bg] has none. *)
Definition initial_options : options D :=
  {| opt_geom := DEFAULT_GEOM;
     opt_margin := DEFAULT_MARGIN;
     opt_fname := DEFAULT_FNAME;
     opt_rings := DEFAULT_RINGS;
     opt_irings := DEFAULT_IRINGS;
     opt_orings := DEFAULT_ORINGS;
     opt_linew := DEFAULT_LINEW;
     opt_bg := opt_bg_indeterminate env |}.

(** One turn of [switch (opt)], for the option character [getopt]
    returned and its [optarg]. *)
Definition set_option (o : options D) (opt : ascii) (optarg : string)
  : prog D (options D) :=
  let '{| opt_geom := geom; opt_margin := margin; opt_fname := fname;
          opt_rings := rings; opt_irings := irings; opt_orings := orings;
          opt_linew := linew; opt_bg := bg |} := o in
  if Ascii.eqb opt "s" then
    ret {| opt_geom := optarg; opt_margin := margin; opt_fname := fname;
           opt_rings := rings; opt_irings := irings; opt_orings := orings;
           opt_linew := linew; opt_bg := bg |}
  else if Ascii.eqb opt "m" then
    ret {| opt_geom := geom; opt_margin := atof env optarg; opt_fname := fname;
           opt_rings := rings; opt_irings := irings; opt_orings := orings;
           opt_linew := linew; opt_bg := bg |}
  else if Ascii.eqb opt "o" then
    ret {| opt_geom := geom; opt_margin := margin; opt_fname := optarg;
           opt_rings := rings; opt_irings := irings; opt_orings := orings;
           opt_linew := linew; opt_bg := bg |}
  else if Ascii.eqb opt "r" then
    ret {| opt_geom := geom; opt_margin := margin; opt_fname := fname;
           opt_rings := atoi env optarg; opt_irings := irings; opt_orings := orings;
           opt_linew := linew; opt_bg := bg |}
  else if Ascii.eqb opt "I" then
    ret {| opt_geom := geom; opt_margin := margin; opt_fname := fname;
           opt_rings := rings; opt_irings := atoi env optarg; opt_orings := orings;
           opt_linew := linew; opt_bg := bg |}
  else if Ascii.eqb opt "O" then
    ret {| opt_geom := geom; opt_margin := margin; opt_fname := fname;
           opt_rings := rings; opt_irings := irings; opt_orings := atoi env optarg;
           opt_linew := linew; opt_bg := bg |}
  else if Ascii.eqb opt "l" then
    ret {| opt_geom := geom; opt_margin := margin; opt_fname := fname;
           opt_rings := rings; opt_irings := irings; opt_orings := orings;
           opt_linew := atof env optarg; opt_bg := bg |}
  else if Ascii.eqb opt "b" then
    ret {| opt_geom := geom; opt_margin := margin; opt_fname := fname;
           opt_rings := rings; opt_irings := irings; opt_orings := orings;
           opt_linew := linew; opt_bg := true |}
  else usage.

(** [while ((opt = getopt(argc, argv, "s:m:o:r:I:O:l:b")) >= 0)].
    [getopt] belongs to libc: the model takes the option characters
    it returns, in order, each with its [optarg], until it returns
    -1.  For a flag that is not in the option string, or one whose
    argument is missing, [getopt] returns ['?'], after writing a line
    of its own to standard error ([opterr] is left set): [cerr] holds
    what the program writes, not that line. *)
Fixpoint parse_options (args : list (ascii * string)) (o : options D)
  : prog D (options D) :=
  match args with
  | [] => ret o
  | (opt, optarg) :: args' =>
      o' <- set_option o opt optarg ;;
      parse_options args' o'
  end.

(* if (opt_bg) { cairo_rectangle(...); cairo_set_source_rgba(...);
                 cairo_fill(cr); } *)
Definition draw_background (bg : bool) (width height margin : D) : prog D unit :=
  if bg then
    emit (rectangle margin margin
            (width - d2 * margin) (height - d2 * margin))%D ;;
    emit (set_source_rgba (dec 95 2) (dec 95 2) (dec 8 1) d1) ;;
    emit fill
  else ret tt.

(* Large blue disk, medium white disk, red small disk, white bullseye *)
Definition draw_disks (cx cy : D) (radius rings irings orings : int) : prog D unit :=
  emit (set_source_rgba (dec 3 1) (dec 5 1) d1 d1) ;;
  emit (arc cx cy (ring_radius (of_int radius) rings rings) d0 (d2 * M_PI))%D ;;
  emit fill ;;
  emit (set_source_rgba (of_int 10) d1 d1 d1) ;;
  emit (arc cx cy (ring_radius (of_int radius) rings (rings - orings)%Z) d0 (d2 * M_PI))%D ;;
  emit fill ;;
  emit (set_source_rgba d1 d0 d0 d1) ;;
  emit (arc cx cy (ring_radius (of_int radius) rings irings) d0 (d2 * M_PI))%D ;;
  emit fill ;;
  emit (set_source_rgba d1 d1 d1 d1) ;;
  emit (arc cx cy (ring_radius (of_int radius) rings 0) d0 (d2 * M_PI))%D ;;
  emit fill.

(* for (int ring = 0; ring <= opt_rings; ring++) {
       double r = ring_radius(radius, opt_rings, ring);
       cairo_arc(cr, cx, cy, r, 0, 2 * M_PI);
       if ((ring > 0 && ring < opt_irings) ||
           (ring > opt_rings - opt_orings && ring < opt_rings))
           white else black;
       cairo_stroke(cr);
   } *)
Definition draw_ring (cx cy : D) (radius rings irings orings ring : int)
  : prog D unit :=
  let r := ring_radius (of_int radius) rings ring in
  emit (arc cx cy r d0 (d2 * M_PI))%D ;;
  (if ((ring >? 0) && (ring <? irings)
       || (ring >? rings - orings) && (ring <? rings))%Z%bool
   then emit (set_source_rgba d1 d1 d1 d1)
   else emit (set_source_rgba d0 d0 d0 d1)) ;;
  emit stroke.

Definition draw_rings (cx cy : D) (radius rings irings orings : int) : prog D unit :=
  for_each (int_range 0 rings) (draw_ring cx cy radius rings irings orings).

(* for (int ring = 1; ring <= opt_rings; ring++) {
       if (ring <= opt_irings || ring > opt_rings - opt_orings)
           white else black;
       num_buf << ring;
       four aligned_text calls, right, left, below and above the centre
   } *)
Definition draw_ring_number (cx cy rs : D) (rings irings orings ring : int)
  : prog D unit :=
  (if ((ring <=? irings) || (ring >? rings - orings))%Z%bool
   then emit (set_source_rgba d1 d1 d1 d1)
   else emit (set_source_rgba d0 d0 d0 d1)) ;;
  let num_s := show_int ring in
  let centred := Z.lor ALIGN_H_CENTER ALIGN_V_CENTER in
  aligned_text env (cx + of_int ring * rs)%D cy centred num_s ;;
  aligned_text env (cx - of_int ring * rs)%D cy centred num_s ;;
  aligned_text env cx (cy + of_int ring * rs)%D centred num_s ;;
  aligned_text env cx (cy - of_int ring * rs)%D centred num_s.

Definition draw_ring_numbers (cx cy rs : D) (rings irings orings : int)
  : prog D unit :=
  for_each (int_range 1 rings) (draw_ring_number cx cy rs rings irings orings).

(* Four extra target eyes *)
Definition draw_eyes (cx cy rs : D) (radius rings : int) : prog D unit :=
  let eye_ring := (rings - 1)%Z in
  let tr := ring_radius (of_int radius) rings eye_ring in
  let td := (tr * dsqrt d2 / d2)%D in
  target_eye (cx - td)%D (cy - td)%D (rs / d2)%D ;;
  target_eye (cx + td)%D (cy - td)%D (rs / d2)%D ;;
  target_eye (cx + td)%D (cy + td)%D (rs / d2)%D ;;
  target_eye (cx - td)%D (cy + td)%D (rs / d2)%D.

(* Koi decorations; returns image_width and image_height *)
Definition draw_koi (width height margin : D) : prog D (D * D) :=
  f <- fish_new env ;;
  let image_inches := d2 in
  let image_width := inch_pt image_inches in
  let f := width_set f image_width in
  let image_height := height_get f in
  put f margin margin ;;
  put f (width - margin - image_width)%D margin ;;
  put f margin (height - margin - image_height)%D ;;
  put f (width - margin - image_width)%D (height - margin - image_height)%D ;;
  fish_delete f ;;
  ret (image_width, image_height).

(* int den = 32;
   int num = (int)(pt_inch(rs) * 32 + 0.5);
   int g = gcd(num, den);
   rs_buf << "Ring spacing " << (num / g) << "/" << (den / g)
          << the inch mark, a double quote *)
Definition spacing_caption (fuel : nat) (rs : D) : option string :=
  let den := 32%Z in
  let num := to_int (pt_inch rs * of_int 32 + dec 5 1)%D in
  match gcd fuel num den with
  | None => None
  | Some g =>
      Some ("Ring spacing " ++ show_int (Z.quot num g) ++ "/"
              ++ show_int (Z.quot den g) ++ dquote)
  end.

Definition copyright : string :=
  "Copyright " ++
  String "195"%char (String "130"%char (String "194"%char (String "169"%char
    " 2022"))).

(* Additional labels *)
Definition draw_labels (fuel : nat) (width height margin rs : D)
    (image_width image_height : D) : prog D unit :=
  let font_size := 12%Z in
  rs_s <- (fun w => match spacing_caption fuel rs with
                    | Some s => (Done s, w)
                    | None => (NoFuel, w)
                    end) ;;
  emit (select_font_face "Helvetica" "CAIRO_FONT_SLANT_NORMAL"
          "CAIRO_FONT_WEIGHT_BOLD") ;;
  emit (set_font_size (of_int font_size)) ;;
  aligned_text env (margin + image_width / d2)%D
    (margin + image_height + of_int font_size)%D
    (Z.lor ALIGN_H_CENTER ALIGN_V_TOP) "www.fishlet.com" ;;
  aligned_text env (width - margin - image_width / d2)%D
    (margin + image_height + of_int font_size)%D
    (Z.lor ALIGN_H_CENTER ALIGN_V_TOP) "www.fishlet.com" ;;
  aligned_text env (margin + image_width / d2)%D
    (height - margin - image_height - of_int font_size)%D
    (Z.lor ALIGN_H_CENTER ALIGN_V_BOTTOM) rs_s ;;
  aligned_text env (width - margin - image_width / d2)%D
    (height - margin - image_height - of_int font_size)%D
    (Z.lor ALIGN_H_CENTER ALIGN_V_BOTTOM) copyright.

(** Everything after the options are parsed. *)
Definition render (fuel : nat) (o : options D) : prog D int :=
  match strchr (opt_geom o) "x" with
  | None => usage
  | Some s =>
      let width := inch_pt (atof env (opt_geom o)) in
      let height := inch_pt (atof env (next_char s)) in
      let margin := inch_pt (opt_margin o) in
      let cx := (width / d2)%D in
      let cy := (height / d2)%D in
      let linew := inch_pt (opt_linew o) in
      let radius := target_radius width height margin linew in
      emit (pdf_surface_create (opt_fname o) width height) ;;
      emit create ;;
      check_status env ;;
      draw_background (opt_bg o) width height margin ;;
      emit (set_line_width linew) ;;
      draw_disks cx cy radius (opt_rings o) (opt_irings o) (opt_orings o) ;;
      draw_rings cx cy radius (opt_rings o) (opt_irings o) (opt_orings o) ;;
      let rs := ring_spacing (of_int radius) (opt_rings o) in
      emit (select_font_face "Helvetica" "CAIRO_FONT_SLANT_NORMAL"
              "CAIRO_FONT_WEIGHT_BOLD") ;;
      emit (set_font_size (rs / d2)%D) ;;
      draw_ring_numbers cx cy rs (opt_rings o) (opt_irings o) (opt_orings o) ;;
      emit new_path ;;
      draw_eyes cx cy rs radius (opt_rings o) ;;
      im <- draw_koi width height margin ;;
      draw_labels fuel width height margin rs (fst im) (snd im) ;;
      emit show_page ;;
      check_status env ;;
      emit destroy ;;
      emit (surface_destroy "surface") ;;
      ret 0%Z
  end.

(* int main(int argc, char *argv[]) *)
Definition main (fuel : nat) (args : list (ascii * string)) : prog D int :=
  o <- parse_options args initial_options ;;
  render fuel o.
End Main.

(** ** An environment for concrete runs

    [plain_atoi] and [plain_atof] read an optional minus sign and
    decimal digits (with a fractional part for [plain_atof]) and stop
    at the first other character, as libc does on such input.  In
    [plain_env] every Cairo call succeeds, a glyph is 6 by 9 points and
    the image is 400 by 300 pixels. *)

Definition digit_of (c : ascii) : option Z :=
  let n := Z.of_nat (nat_of_ascii c) in
  if ((48 <=? n) && (n <=? 57))%Z%bool then Some (n - 48)%Z else None.

(** Leading digits of [s] appended to [acc]: the number, how many
    digits were read, and the rest of the string. *)
Fixpoint read_digits (s : string) (acc : Z) (n : nat) : Z * nat * string :=
  match s with
  | EmptyString => (acc, n, s)
  | String c s' =>
      match digit_of c with
      | Some d => read_digits s' (10 * acc + d)%Z (S n)
      | None => (acc, n, s)
      end
  end.

Definition read_sign (s : string) : bool * string :=
  match s with
  | String "-"%char s' => (true, s')
  | _ => (false, s)
  end.

Definition plain_atoi (s : string) : int :=
  let '(neg, s1) := read_sign s in
  let '(z, _, _) := read_digits s1 0%Z 0%nat in
  if neg then (- z)%Z else z.

Definition plain_atof {D} `{Double D} (s : string) : D :=
  let '(neg, s1) := read_sign s in
  let '(z, _, s2) := read_digits s1 0%Z 0%nat in
  let '(m, e) :=
    match s2 with
    | String "."%char s3 => let '(m, e, _) := read_digits s3 z 0%nat in (m, e)
    | _ => (z, 0%nat)
    end in
  dec (if neg then (- m)%Z else m) e.

Definition plain_env {D} `{Double D} (bg0 : bool) : Env D :=
  {| atof := plain_atof;
     atoi := plain_atoi;
     cairo_status := fun _ => None;
     text_extents := fun _ text => (of_int (6 * Z.of_nat (String.length text)), of_int 9);
     png_load := fun _ => inr (d0, d0, of_int 400, of_int 300);
     opt_bg_indeterminate := bg0 |}.


(** ** Reading a canvas

    What a sequence of Cairo calls puts on the page.  The pen follows
    the three pieces of Cairo's state the program relies on: the
    source (set by [set_source_rgba] and [set_source_surface], saved
    and brought back by [save] and [restore]), and the current path
    (extended by [arc], [rectangle] and [move_to], consumed by [fill]
    and [stroke], cleared by [new_path]; it is not part of what [save]
    saves). *)

Inductive source (D : Type) : Type :=
| colour (c : D * D * D * D)
| surface (image : string).

Arguments surface {D}.

(** The two inks of outlines and labels: [1.0, 1.0, 1.0, 1.0] and
    [0.0, 0.0, 0.0, 1.0]. *)
Definition white {D} `{Double D} : D * D * D * D := (d1, d1, d1, d1).
Definition black {D} `{Double D} : D * D * D * D := (d0, d0, d0, d1).

Inductive mark (D : Type) : Type :=
| stroked (ink : source D) (outline : list (cairo_op D))
| filled (ink : source D) (outline : list (cairo_op D))
| text (ink : source D) (t : string)
| painted (ink : source D).

Record pen (D : Type) : Type := {
  ink : source D;
  saved : list (source D);
  path : list (cairo_op D)
}.

Definition pen_step {D} (p : pen D) (op : cairo_op D) : pen D * list (mark D) :=
  match op with
  | set_source_rgba r g b a =>
      ({| ink := colour (r, g, b, a); saved := saved p; path := path p |}, [])
  | set_source_surface image _ _ =>
      ({| ink := surface image; saved := saved p; path := path p |}, [])
  | save =>
      ({| ink := ink p; saved := ink p :: saved p; path := path p |}, [])
  | restore =>
      match saved p with
      | i :: s => ({| ink := i; saved := s; path := path p |}, [])
      | [] => (p, [])
      end
  | arc _ _ _ _ _ | rectangle _ _ _ _ | move_to _ _ =>
      ({| ink := ink p; saved := saved p; path := path p ++ [op] |}, [])
  | new_path =>
      ({| ink := ink p; saved := saved p; path := [] |}, [])
  | fill =>
      ({| ink := ink p; saved := saved p; path := [] |}, [filled (ink p) (path p)])
  | fill_preserve =>
      (p, [filled (ink p) (path p)])
  | stroke =>
      ({| ink := ink p; saved := saved p; path := [] |}, [stroked (ink p) (path p)])
  | show_text t => (p, [text (ink p) t])
  | paint => (p, [painted (ink p)])
  | _ => (p, [])
  end.

Fixpoint draw {D} (p : pen D) (ops : list (cairo_op D)) : pen D * list (mark D) :=
  match ops with
  | [] => (p, [])
  | op :: ops' =>
      let '(p1, m1) := pen_step p op in
      let '(p2, m2) := draw p1 ops' in
      (p2, (m1 ++ m2)%list)
  end.

Definition marks {D} (p : pen D) (ops : list (cairo_op D)) : list (mark D) :=
  snd (draw p ops).

(** The Cairo calls a computation adds when it runs from [w]. *)
Definition drawn {D A} (c : prog D A) (w : world D) : list (cairo_op D) :=
  skipn (List.length (canvas w)) (canvas (snd (c w))).

(** [w] with the calls [ops] added. *)
Definition extend {D} (w : world D) (ops : list (cairo_op D)) : world D :=
  {| canvas := canvas w ++ ops; cerr := cerr w |}.

(** The option characters the switch of [main] has a case for. *)
Definition known_options : list ascii :=
  ["s"; "m"; "o"; "r"; "I"; "O"; "l"; "b"]%char.

Definition known_option (opt : ascii) : bool :=
  existsb (Ascii.eqb opt) known_options.

(** The size argument in effect after the option loop: that of the
    last [-s], the default without one. *)
Fixpoint geom_after (args : list (ascii * string)) (geom : string) : string :=
  match args with
  | [] => geom
  | (opt, optarg) :: args' =>
      geom_after args' (if Ascii.eqb opt "s" then optarg else geom)
  end.


(** ** Vocabulary of the statements *)

(** [runs c w ops a]: from [w], [c] returns [a] after making exactly
    the calls [ops], and writes nothing to [cerr]. *)
Definition runs {D A} (c : prog D A) (w : world D) (ops : list (cairo_op D)) (a : A)
  : Prop :=
  c w = (Done a, extend w ops).

(** [grows c]: whatever way [c] ends, it has only added Cairo calls
    after those already made. *)
Definition grows {D A} (c : prog D A) : Prop :=
  forall w, exists ops, canvas (snd (c w)) = (canvas w ++ ops)%list.

(** [starts c w ops]: run from [w], the first calls [c] makes are [ops]. *)
Definition starts {D A} (c : prog D A) (w : world D) (ops : list (cairo_op D)) : Prop :=
  exists rest, canvas (snd (c w)) = (canvas w ++ ops ++ rest)%list.

(** [quiet c]: [c] always returns, and writes nothing to [cerr]. *)
Definition quiet {D A} (c : prog D A) : Prop :=
  forall w, exists ops a, runs c w ops a.

(** [ends c w o s]: run from [w], [c] ends as [o] after writing [s] to
    [cerr]. *)
Definition ends {D A} (c : prog D A) (w : world D) (o : outcome A) (s : string)
  : Prop :=
  exists w', c w = (o, w') /\ cerr w' = cerr w ++ s.

(** The world [usage] leaves: the usage text is on [cerr], the canvas
    is as it was. *)
Definition usage_exit {D} (w : world D) : world D :=
  {| canvas := canvas w; cerr := cerr w ++ usage_text |}.

(** The tests of the two loops, by name. *)
Definition ring_test (rings irings orings k : int) : bool :=
  ((k >? 0) && (k <? irings) || (k >? rings - orings) && (k <? rings))%Z%bool.

Definition label_test (rings irings orings k : int) : bool :=
  ((k <=? irings) || (k >? rings - orings))%Z%bool.

(** [target -s 17x17 -m 0 -l 0]: a page 17 inches square without
    margin, which puts the eight rings one inch apart. *)
Definition one_inch_args : list (ascii * string) :=
  [("s"%char, "17x17"); ("m"%char, "0"); ("l"%char, "0")].

(** Checks of the layout in binary64, for an integer radius [R] as
    [main] passes it: the outermost radius is within 2^-50 of [R],
    relatively, and the radii of the rings 0 to [N] increase. *)
Definition b64_outer_ring_close (R N : int) : bool :=
  let r := ring_radius (D := float) (of_int R) N N in
  PrimFloat.leb (PrimFloat.abs (PrimFloat.sub r (of_int R)))
    (PrimFloat.mul (of_int R) 0x1p-50%float).

Definition b64_radii_increase (R N : int) : bool :=
  forallb (fun k => dltb (ring_radius (D := float) (of_int R) N k)
                      (ring_radius (D := float) (of_int R) N (k + 1)%Z))
    (int_range 0 (N - 1)).

(** [plain_env] without the image file. *)
Definition no_koi_env {D} `{Double D} : Env D :=
  {| atof := plain_atof;
     atoi := plain_atoi;
     cairo_status := fun _ => None;
     text_extents := fun _ text => (of_int (6 * Z.of_nat (String.length text)), of_int 9);
     png_load := fun _ => inl "file not found";
     opt_bg_indeterminate := false |}.

(** The ring numbers of the default target (radius 286 on a letter
    page, 8 rings, 3 inner, 2 outer), as marks on the page. *)
Definition default_labels : list (mark Q) :=
  marks {| ink := colour black; saved := []; path := [] |}
    (drawn (draw_ring_numbers (plain_env false) 306%Q 396%Q
              (ring_spacing 286%Q 8) 8 3 2) start).

(** ** Vocabulary of the statements on the helpers and on whole runs *)

(** The calls of one [put] at [(x, y)], of one [target_eye] and of one
    [aligned_text] whose text starts at [(x, y)]. *)
Definition put_ops {D} `{Double D} (f : fish D) (x y : D) : list (cairo_op D) :=
  [save; translate x y;
   scale (fish_width f / im_w f)%D (fish_width f / im_w f)%D;
   set_source_surface (im f) d0 d0; paint; restore].

Definition eye_ops {D} `{Double D} (x y r : D) : list (cairo_op D) :=
  [set_source_rgba d1 d1 d1 d1; arc x y r d0 (d2 * M_PI)%D; fill_preserve;
   set_source_rgba d0 d0 d0 d1; stroke].

Definition text_ops {D} (x y : D) (t : string) : list (cairo_op D) :=
  [save; move_to x y; show_text t; restore].


Definition eye {D} `{Double D} (x y r : D) : list (mark D) :=
  [filled (colour white) [arc x y r d0 (d2 * M_PI)%D];
   stroked (colour black) [arc x y r d0 (d2 * M_PI)%D]].

(** [prints c ts]: [c] always returns, and what it puts on the page
    is the texts [ts], in the ink it finds and leaves. *)
Definition prints {D} (c : prog D unit) (ts : list string) : Prop :=
  forall w, exists ops mv,
    runs c w ops tt /\
    forall p, draw p ops
              = ({| ink := ink p; saved := saved p; path := (path p ++ mv)%list |},
                 map (text (ink p)) ts).

(** [exits_with c s0]: when [c] calls [exit], the status is [s0]. *)
Definition exits_with {D A} (c : prog D A) (s0 : int) : Prop :=
  forall w s w', c w = (Exit s, w') -> s = s0.

(** [silent c]: when [c] returns, it has written nothing to [cerr]. *)
Definition silent {D A} (c : prog D A) : Prop :=
  forall w a w', c w = (Done a, w') -> cerr w' = cerr w.

(** [brackets c head tail z]: when [c] returns, it returns [z], it
    has written nothing to [cerr], and the Cairo calls it has made
    begin with [head] and end with [tail]. *)
Definition brackets {D A} (c : prog D A) (head tail : list (cairo_op D)) (z : A)
  : Prop :=
  forall w a w', c w = (Done a, w') ->
    a = z /\ cerr w' = cerr w /\
    exists ops, canvas w' = (canvas w ++ head ++ ops ++ tail)%list.

(** The argument given with the last [-c] of a command line. *)
Fixpoint last_arg (c : ascii) (args : list (ascii * string)) : option string :=
  match args with
  | [] => None
  | (opt, optarg) :: args' =>
      match last_arg c args' with
      | Some a => Some a
      | None => if Ascii.eqb opt c then Some optarg else None
      end
  end.

(** The value of a variable that [-c] sets through [f]. *)
Definition setting {A} (f : string -> A) (dflt : A) (x : option string) : A :=
  match x with
  | Some a => f a
  | None => dflt
  end.

(** [plain_env] where Cairo reports an error at every check. *)
Definition failing_surface_env {D} `{Double D} : Env D :=
  {| atof := plain_atof;
     atoi := plain_atoi;
     cairo_status := fun _ => Some "error while writing to output stream";
     text_extents := fun _ text => (of_int (6 * Z.of_nat (String.length text)), of_int 9);
     png_load := fun _ => inr (d0, d0, of_int 400, of_int 300);
     opt_bg_indeterminate := false |}.

(** ** Reading binary64 numbers exactly *)




Local Close Scope string_scope.

(** * Properties *)

(** ** Ring layout in exact arithmetic *)

Section ExactLayout.
Local Open Scope Q_scope.

Lemma half_exact : dec (D := Q) 5 1 == 1 # 2.
Proof. reflexivity. Qed.


Lemma rings_plus_half_pos (N : Z) : (0 <= N)%Z -> 0 < inject_Z N + (1 # 2).
Proof. intros HN. unfold Qlt, Qplus, inject_Z; simpl. lia. Qed.

Lemma ring_spacing_exact (R : Q) (N : Z) :
  ring_spacing R N == R / (inject_Z N + (1 # 2)).
Proof.
  unfold ring_spacing. cbn [dadd ddiv of_int Q_double].
  rewrite half_exact. reflexivity.
Qed.

Lemma ring_radius_exact (R : Q) (N k : Z) :
  ring_radius R N k == ring_spacing R N / 2 + inject_Z k * ring_spacing R N.
Proof.
  unfold ring_radius. cbn [dadd ddiv dmul of_int Q_double]. reflexivity.
Qed.

Lemma ring_spacing_pos (R : Q) (N : Z) :
  0 < R -> (0 <= N)%Z -> 0 < ring_spacing R N.
Proof.
  intros HR HN. rewrite ring_spacing_exact.
  apply Qlt_shift_div_l.
  - apply rings_plus_half_pos; assumption.
  - rewrite Qmult_0_l. assumption.
Qed.

(** C2, the counterexample: at R = 100 and N = 8 the spacing is
    200/17 = 11.7647..., more than half a point away from the 11.111
    the claim gives (11.111 is 100/9, the quotient by N + 1). *)
Lemma ring_spacing_100_8_is_not_11_111 :
  ~ Qabs (ring_spacing 100 8%Z - 11.111) <= 0.5.
Proof.
  assert (E : ring_spacing 100 8%Z == 200 # 17) by reflexivity.
  rewrite E. intros Hle. vm_compute in Hle. apply Hle. reflexivity.
Qed.

(** C2, as amended: for every radius R and ring count N,
    [ring_spacing R N] is R / (N + 0.5); for R = 100 and N = 8 that is
    11.765 to three decimals. *)
Theorem ring_spacing_formula :
  (forall (R : Q) (N : Z), ring_spacing R N == R / (inject_Z N + 0.5)) /\
  Qabs (ring_spacing 100 8%Z - 11.765) <= 0.0005.
Proof.
  split.
  - intros R N. rewrite ring_spacing_exact.
    assert (E : 0.5 == 1 # 2) by reflexivity. rewrite E. reflexivity.
  - assert (E : ring_spacing 100 8%Z == 200 # 17) by reflexivity.
    rewrite E. vm_compute. discriminate.
Qed.


(** In exact arithmetic, for every radius R > 0 and ring count N >= 0,
    the ring radius is strictly increasing in the ring index: j < k gives
    [ring_radius R N j < ring_radius R N k] (for all indices, those of
    [0, N] among them). *)
Theorem ring_radius_strictly_increasing (R : Q) (N j k : Z) :
  0 < R -> (0 <= N)%Z -> (j < k)%Z ->
  ring_radius R N j < ring_radius R N k.
Proof.
  intros HR HN Hjk. rewrite !ring_radius_exact.
  pose proof (@ring_spacing_pos R N HR HN) as Hrs.
  apply Qplus_lt_r.
  apply Qmult_lt_compat_r; [assumption|].
  rewrite <- Zlt_Qlt. assumption.
Qed.

Lemma ring_radius_strictly_increasing_witness :
  0 < 100 /\ (0 <= 8)%Z /\ (3 < 4)%Z /\
  ring_radius 100 8%Z 3%Z < ring_radius 100 8%Z 4%Z.
Proof.
  assert (HR : 0 < 100) by reflexivity.
  assert (HN : (0 <= 8)%Z) by lia.
  assert (Hjk : (3 < 4)%Z) by lia.
  split; [exact HR|]. split; [exact HN|]. split; [exact Hjk|].
  exact (@ring_radius_strictly_increasing 100 8%Z 3%Z 4%Z HR HN Hjk).
Defined.

(** *** The radius of the target *)

Lemma Qtrunc_floor (x : Q) : 0 <= x -> Qtrunc x = Qfloor x.
Proof.
  destruct x as [n d]. unfold Qle, Qtrunc, Qfloor; simpl. intros Hn.
  apply Z.quot_div_nonneg; lia.
Qed.

Lemma Qtrunc_ceiling (x : Q) : x <= 0 -> Qtrunc x = Qceiling x.
Proof.
  destruct x as [n d]. unfold Qle, Qtrunc, Qceiling, Qfloor; simpl. intros Hn.
  rewrite <- (Z.opp_involutive n) at 1.
  rewrite Z.quot_opp_l by lia. f_equal.
  apply Z.quot_div_nonneg; lia.
Qed.

Lemma Qtrunc_comp (x y : Q) : x == y -> Qtrunc x = Qtrunc y.
Proof.
  intros Hxy. destruct (Qlt_le_dec x 0) as [Hneg|Hpos].
  - rewrite !Qtrunc_ceiling by (rewrite <- ?Hxy; apply Qlt_le_weak; assumption).
    rewrite Hxy. reflexivity.
  - rewrite !Qtrunc_floor by (rewrite <- ?Hxy; assumption).
    rewrite Hxy. reflexivity.
Qed.

(** Truncation toward zero: the integer no larger in size than [x]
    and less than 1 away from it. *)
Lemma Qtrunc_abs (x : Q) :
  Qabs (inject_Z (Qtrunc x)) <= Qabs x /\ Qabs (x - inject_Z (Qtrunc x)) < 1.
Proof.
  destruct (Qlt_le_dec x 0) as [Hneg|Hpos].
  - apply Qlt_le_weak in Hneg.
    rewrite Qtrunc_ceiling by assumption.
    pose proof (Qle_ceiling x) as Hc. pose proof (Qceiling_lt x) as Hl.
    assert (Hz : inject_Z (Qceiling x) <= 0).
    { change 0 with (inject_Z 0). rewrite <- Zle_Qle.
      apply Qceiling_resp_le in Hneg. exact Hneg. }
    rewrite (Qabs_neg x), (Qabs_neg (inject_Z (Qceiling x))) by assumption.
    rewrite Qabs_neg by lra.
    unfold Z.sub in Hl. rewrite inject_Z_plus in Hl.
    change (inject_Z (Z.opp 1)) with (- (1)) in Hl. split; lra.
  - rewrite Qtrunc_floor by assumption.
    pose proof (Qfloor_le x) as Hc. pose proof (Qlt_floor x) as Hl.
    assert (Hz : 0 <= inject_Z (Qfloor x)).
    { change 0 with (inject_Z 0). rewrite <- Zle_Qle.
      apply Qfloor_resp_le in Hpos. exact Hpos. }
    rewrite (Qabs_pos x), (Qabs_pos (inject_Z (Qfloor x))) by assumption.
    rewrite Qabs_pos by lra.
    rewrite inject_Z_plus in Hl. change (inject_Z 1) with 1 in Hl. split; lra.
Qed.

Lemma Qltb_lt (a b : Q) : Qltb a b = true <-> a < b.
Proof.
  unfold Qltb. rewrite Qlt_alt. destruct (a ?= b); split; congruence.
Qed.

Lemma Qltb_ge (a b : Q) : Qltb a b = false <-> b <= a.
Proof.
  unfold Qltb. rewrite Qle_alt.
  pose proof (Qcompare_antisym a b) as Ha.
  destruct (a ?= b) eqn:E; destruct (b ?= a) eqn:E'; simpl in Ha;
    split; try congruence; try discriminate.
Qed.

(** The code takes the width when it is the smaller and the height
    otherwise: the shorter side either way. *)
Lemma target_radius_exact (width height margin linew : Q) :
  exists x : Q,
    x == Qmin width height / 2 - margin - linew / 2 /\
    target_radius width height margin linew = Qtrunc x.
Proof.
  unfold target_radius. cbn [dltb dsub ddiv of_int to_int Q_double].
  destruct (Qltb width height) eqn:E.
  - apply Qltb_lt in E. eexists; split; [|reflexivity].
    rewrite Q.min_l by (apply Qlt_le_weak; assumption). reflexivity.
  - apply Qltb_ge in E. eexists; split; [|reflexivity].
    rewrite Q.min_r by assumption. reflexivity.
Qed.

(** In exact arithmetic already: on the default page (8.5 by 11 inches,
    margin 0.25 inch, line width 0.05 inch, all in points) half the
    shorter side minus the margin minus half the line width is 286.2,
    and the radius the code keeps is 286: [radius] is declared [int],
    so the assignment drops the fraction. *)
Lemma radius_is_not_the_exact_expression :
  let width := inch_pt 8.5 in
  let height := inch_pt 11 in
  let margin := inch_pt 0.25 in
  let linew := inch_pt 0.05 in
  ~ inject_Z (target_radius width height margin linew)
    == Qmin width height / 2 - margin - linew / 2.
Proof.
  intros width height margin linew.
  assert (Er : target_radius width height margin linew = 286%Z) by reflexivity.
  assert (Ex : Qmin width height / 2 - margin - linew / 2 == 286.2) by reflexivity.
  rewrite Er, Ex. discriminate.
Qed.

(** In exact arithmetic the radius is the value of half the shorter
    page side minus the margin minus half the line width (all in
    points) truncated toward zero: it is no larger in size than that
    value and less than 1 away from it. *)
Lemma radius_is_truncated_exact (width height margin linew : Q) :
  let x := Qmin width height / 2 - margin - linew / 2 in
  let radius := inject_Z (target_radius width height margin linew) in
  Qabs radius <= Qabs x /\ Qabs (x - radius) < 1.
Proof.
  intros x radius.
  destruct (target_radius_exact width height margin linew) as [y [Hy Hr]].
  subst radius. rewrite Hr. fold x in Hy. rewrite <- Hy.
  apply Qtrunc_abs.
Qed.

End ExactLayout.

(** ** The helper [gcd] *)

Lemma gcd_equation (fuel : nat) (a b : int) :
  gcd (S fuel) a b =
    if a =? 0 then Some b
    else if a <? b then gcd fuel a (Z.rem b a)
    else gcd fuel b a.
Proof. reflexivity. Qed.

(** On equal arguments other than 0 the call [gcd(a, a)] is neither
    the case [a == 0] nor the case [a < b], so it calls [gcd(b, a)]:
    itself. *)
Lemma gcd_same_diverges (a : int) :
  a <> 0 -> forall fuel, gcd fuel a a = None.
Proof.
  intros Ha fuel. induction fuel as [|fuel IH]; [reflexivity|].
  rewrite gcd_equation.
  destruct (Z.eqb_spec a 0) as [E|_]; [contradiction|].
  rewrite Z.ltb_irrefl. exact IH.
Qed.

Lemma gcd_fuel_mono (fuel : nat) :
  forall a b g, gcd fuel a b = Some g ->
  forall fuel', (fuel <= fuel')%nat -> gcd fuel' a b = Some g.
Proof.
  induction fuel as [|fuel IH]; intros a b g Hg fuel' Hle; [discriminate|].
  destruct fuel' as [|fuel']; [lia|].
  rewrite gcd_equation in *.
  destruct (a =? 0); [assumption|].
  destruct (a <? b); apply IH with (fuel' := fuel') in Hg; auto; lia.
Qed.

(** From a pair with the smaller number first, two calls lead to the
    pair of the remainder and the smaller number. *)
Lemma gcd_ordered (n : nat) :
  forall a b, 0 <= a < b -> (Z.to_nat a <= n)%nat ->
  gcd (S (2 * n)) a b = Some (Z.gcd a b).
Proof.
  induction n as [n IH] using lt_wf_ind. intros a b Hab Hn.
  rewrite gcd_equation.
  destruct (Z.eqb_spec a 0) as [->|Ha].
  - rewrite Z.gcd_0_l, Z.abs_eq by lia. reflexivity.
  - destruct (Z.ltb_spec a b) as [_|Hge]; [|lia].
    destruct n as [|n]; [lia|].
    replace (2 * S n)%nat with (S (S (2 * n))) by lia.
    rewrite gcd_equation.
    destruct (Z.eqb_spec a 0) as [E|_]; [contradiction|].
    pose proof (Z.rem_bound_pos b a ltac:(lia) ltac:(lia)) as Hr.
    destruct (Z.ltb_spec a (Z.rem b a)) as [Hlt|_]; [lia|].
    assert (Hg : Z.gcd (Z.rem b a) a = Z.gcd a b).
    { rewrite Z.rem_mod_nonneg by lia. apply Z.gcd_mod. lia. }
    rewrite <- Hg.
    apply gcd_fuel_mono with (fuel := S (2 * Z.to_nat (Z.rem b a))).
    + apply IH with (m := Z.to_nat (Z.rem b a)); lia.
    + lia.
Qed.

Lemma gcd_returns (a b : int) (fuel : nat) :
  0 <= a -> 0 <= b -> a = 0 \/ a <> b ->
  (2 * Z.to_nat (Z.min a b) + 2 <= fuel)%nat ->
  gcd fuel a b = Some (Z.gcd a b).
Proof.
  intros Ha Hb Hne Hfuel.
  destruct (Z.lt_trichotomy a b) as [Hlt|[Heq|Hgt]].
  - apply gcd_fuel_mono with (fuel := S (2 * Z.to_nat a)); [|lia].
    apply gcd_ordered; lia.
  - destruct Hne as [->|Hne]; [|contradiction].
    subst b. destruct fuel as [|fuel]; [lia|]. reflexivity.
  - destruct fuel as [|fuel]; [lia|]. rewrite gcd_equation.
    destruct (Z.eqb_spec a 0) as [E|_]; [lia|].
    destruct (Z.ltb_spec a b) as [Hlt|_]; [lia|].
    rewrite Z.gcd_comm.
    apply gcd_fuel_mono with (fuel := S (2 * Z.to_nat b)); [|lia].
    apply gcd_ordered; lia.
Qed.

(** Away from equal arguments [gcd] returns, and returns the greatest
    common divisor: for non-negative [a] and [b] with [a = 0] or
    [a <> b], any fuel from [2 * min a b + 2] on is enough. *)
Theorem gcd_terminates (a b : int) (fuel : nat) :
  0 <= a -> 0 <= b -> a = 0 \/ a <> b ->
  (2 * Z.to_nat (Z.min a b) + 2 <= fuel)%nat ->
  gcd fuel a b = Some (Z.gcd a b).
Proof.
  intros Ha Hb Hne Hfuel. apply gcd_returns; assumption.
Qed.

Lemma gcd_terminates_witness :
  0 <= 24 /\ 0 <= 32 /\ (24 = 0 \/ 24 <> 32) /\
  (2 * Z.to_nat (Z.min 24 32) + 2 <= 50)%nat /\
  gcd 50 24 32 = Some (Z.gcd 24 32).
Proof.
  assert (Ha : 0 <= 24) by lia.
  assert (Hb : 0 <= 32) by lia.
  assert (Hne : 24 = 0 \/ 24 <> 32) by (right; discriminate).
  assert (Hf : (2 * Z.to_nat (Z.min 24 32) + 2 <= 50)%nat) by (vm_compute; lia).
  split; [exact Ha|]. split; [exact Hb|]. split; [exact Hne|]. split; [exact Hf|].
  exact (@gcd_terminates 24 32 50%nat Ha Hb Hne Hf).
Defined.

(** C10, the failing input: [gcd(32, 32)] does not return, whatever
    the fuel.  32 is also the caption's denominator, so this is the
    call the caption makes when the spacing rounds to 32/32 inch. *)
Theorem gcd_32_32_never_returns : forall fuel : nat, gcd fuel 32 32 = None.
Proof.
  intros fuel. induction fuel as [|fuel IH]; [reflexivity|].
  rewrite gcd_equation. exact IH.
Qed.

(** ** The caption under the ring spacing *)

(** The claim's example: a spacing of 54 points is 24/32 inch, and the
    caption reads 3/4 with the inch mark, in exact and in binary64
    arithmetic alike. *)
Example caption_54_three_quarters :
  spacing_caption (D := Q) 10 54%Q
    = Some ("Ring spacing 3/4" ++ dquote)%string /\
  spacing_caption (D := float) 10 54%float
    = Some ("Ring spacing 3/4" ++ dquote)%string.
Proof. split; vm_compute; reflexivity. Qed.

(** Where the numerator is not negative and not 32, the caption is the
    fraction num/32 in lowest terms, num being p/72*32 + 0.5 cut to an
    integer. *)
Theorem caption_reduced (p : Q) (fuel : nat) :
  let num := Qtrunc (p / 72 * 32 + 0.5)%Q in
  0 <= num -> num <> 32 -> (66 <= fuel)%nat ->
  spacing_caption fuel p =
    Some ("Ring spacing " ++ show_int (num / Z.gcd num 32) ++ "/"
            ++ show_int (32 / Z.gcd num 32) ++ dquote)%string.
Proof.
  intros num Hnum Hne Hfuel. unfold spacing_caption.
  replace (to_int (pt_inch p * of_int 32 + dec 5 1)%D) with num.
  2: { apply Qtrunc_comp. unfold pt_inch. cbn [dadd dmul ddiv of_int Q_double].
       apply Qplus_comp; reflexivity. }
  rewrite (@gcd_returns num 32 fuel) by (try lia; destruct (Z.eq_dec num 0); lia).
  assert (Hg : 0 < Z.gcd num 32).
  { pose proof (Z.gcd_nonneg num 32) as Hn.
    destruct (Z.eq_dec (Z.gcd num 32) 0) as [E|E]; [|lia].
    apply Z.gcd_eq_0_r in E. discriminate. }
  rewrite !Z.quot_div_nonneg by lia. reflexivity.
Qed.

Lemma caption_reduced_witness :
  0 <= Qtrunc (54 / 72 * 32 + 0.5)%Q /\
  Qtrunc (54 / 72 * 32 + 0.5)%Q <> 32 /\
  spacing_caption 66 54%Q = Some ("Ring spacing 3/4" ++ dquote)%string.
Proof.
  assert (H0 : 0 <= Qtrunc (54 / 72 * 32 + 0.5)%Q) by (vm_compute; discriminate).
  assert (H1 : Qtrunc (54 / 72 * 32 + 0.5)%Q <> 32) by (vm_compute; discriminate).
  split; [exact H0|]. split; [exact H1|].
  exact (@caption_reduced 54%Q 66%nat H0 H1 (le_n 66)).
Defined.

(** C7, the failing input: at a ring spacing of 72 points, one inch,
    the numerator is 32 and the caption is never made: [gcd(32, 32)]
    does not return, in exact and in binary64 arithmetic alike, and the
    whole program run as [target -s 17x17 -m 0 -l 0] stops there
    without an exit status. *)
Theorem caption_at_one_inch_never_made :
  (forall fuel : nat, spacing_caption (D := Q) fuel 72%Q = None) /\
  (forall fuel : nat, spacing_caption (D := float) fuel 72%float = None) /\
  (forall fuel : nat,
      fst (main (D := float) (plain_env false) fuel one_inch_args start) = NoFuel).
Proof.
  split; [|split]; intros fuel.
  - unfold spacing_caption.
    replace (to_int (pt_inch 72%Q * of_int 32 + dec 5 1)%D) with 32
      by (vm_compute; reflexivity).
    rewrite gcd_same_diverges by discriminate. reflexivity.
  - unfold spacing_caption.
    replace (to_int (pt_inch 72%float * of_int 32 + dec 5 1)%D) with 32
      by (vm_compute; reflexivity).
    rewrite gcd_same_diverges by discriminate. reflexivity.
  - cbv -[gcd].
    rewrite gcd_same_diverges by discriminate. reflexivity.
Qed.

(** ** Outlines and ring numbers *)

Section Runs.
Context {D : Type} `{Double D}.
Local Open Scope prog_scope.

Lemma extend_nil (w : world D) : extend w [] = w.
Proof.
  destruct w as [cv ce]. unfold extend; simpl. rewrite app_nil_r. reflexivity.
Qed.

Lemma extend_extend (w : world D) (a b : list (cairo_op D)) :
  extend (extend w a) b = extend w (a ++ b).
Proof. unfold extend; simpl. rewrite app_assoc. reflexivity. Qed.

Lemma runs_ret {A} (a : A) (w : world D) : runs (ret a) w [] a.
Proof. unfold runs, ret. rewrite extend_nil. reflexivity. Qed.

Lemma runs_emit (op : cairo_op D) (w : world D) : runs (emit op) w [op] tt.
Proof. reflexivity. Qed.

Lemma runs_history (w : world D) : runs history w [] (canvas w).
Proof. unfold runs, history. rewrite extend_nil. reflexivity. Qed.

Lemma runs_bind {A B} (c : prog D A) (k : A -> prog D B) w ops1 ops2 a b :
  runs c w ops1 a -> runs (k a) (extend w ops1) ops2 b ->
  runs (bind c k) w (ops1 ++ ops2) b.
Proof.
  unfold runs, bind. intros -> ->. rewrite extend_extend. reflexivity.
Qed.

Lemma runs_drawn {A} (c : prog D A) w ops a : runs c w ops a -> drawn c w = ops.
Proof.
  unfold runs, drawn. intros ->. simpl.
  rewrite skipn_app, skipn_all, Nat.sub_diag. reflexivity.
Qed.

Lemma draw_app (ops1 ops2 : list (cairo_op D)) : forall p : pen D,
  draw p (ops1 ++ ops2) =
    (fst (draw (fst (draw p ops1)) ops2),
     snd (draw p ops1) ++ snd (draw (fst (draw p ops1)) ops2)).
Proof.
  induction ops1 as [|op ops1 IH]; intros p; simpl.
  - destruct (draw p ops2); reflexivity.
  - destruct (pen_step p op) as [p1 m1]. rewrite IH.
    destruct (draw p1 ops1) as [p2 m2]. simpl.
    rewrite app_assoc. reflexivity.
Qed.

(** A loop whose every turn returns and leaves marks that depend on
    the pen it starts with only through an invariant [I]. *)
Lemma for_each_marks {A} (I : pen D -> Prop) (f : A -> list (mark D))
    (body : A -> prog D unit) :
  (forall a w, exists ops,
      runs (body a) w ops tt /\
      forall p, I p -> I (fst (draw p ops)) /\ snd (draw p ops) = f a) ->
  forall l w, exists ops,
      runs (for_each l body) w ops tt /\
      forall p, I p -> I (fst (draw p ops)) /\ snd (draw p ops) = flat_map f l.
Proof.
  intros Hbody l. induction l as [|a l IH]; intros w.
  - exists []. split; [apply runs_ret|]. intros p Hp. simpl. auto.
  - destruct (Hbody a w) as [ops1 [Hr1 Hm1]].
    destruct (IH (extend w ops1)) as [ops2 [Hr2 Hm2]].
    exists (ops1 ++ ops2). split.
    + simpl. eapply runs_bind; eassumption.
    + intros p Hp. rewrite draw_app. simpl.
      destruct (Hm1 p Hp) as [Hi1 He1].
      destruct (Hm2 _ Hi1) as [Hi2 He2].
      split; [assumption|]. rewrite He1, He2. reflexivity.
Qed.

Lemma int_range_nth (lo hi k : int) :
  lo <= k <= hi -> nth_error (int_range lo hi) (Z.to_nat (k - lo)) = Some k.
Proof.
  intros Hk. unfold int_range.
  rewrite nth_error_map, nth_error_seq.
  destruct (Nat.ltb_spec (Z.to_nat (k - lo)) (Z.to_nat (hi + 1 - lo))) as [_|Hge];
    [|lia].
  simpl. f_equal. lia.
Qed.


Lemma flat_map_nth {A B} (f : A -> list B) (n : nat) (l : list A) :
  (forall a, List.length (f a) = n) ->
  forall i j a, nth_error l i = Some a -> (j < n)%nat ->
  nth_error (flat_map f l) (n * i + j) = nth_error (f a) j.
Proof.
  intros Hlen. induction l as [|x l IH]; intros i j a Hi Hj.
  - destruct i; discriminate.
  - destruct i as [|i]; simpl in *.
    + injection Hi as ->. rewrite Nat.mul_0_r. simpl.
      rewrite nth_error_app1 by (rewrite Hlen; assumption). reflexivity.
    + rewrite nth_error_app2 by (rewrite Hlen; nia).
      rewrite Hlen. replace (n * S i + j - n)%nat with (n * i + j)%nat by nia.
      apply IH; assumption.
Qed.

(** When white and black differ, the ink chosen by a test is white
    exactly when the test holds and black exactly when it does not. *)
Lemma two_inks (b : bool) (P : Prop) :
  white (D := D) <> black -> (b = true <-> P) ->
  ((if b then white else black) = white <-> P) /\
  ((if b then white else black) = black <-> ~ P).
Proof.
  intros Hwb Ht. destruct b.
  - split; split; intros Hx; try reflexivity.
    + apply Ht; reflexivity.
    + contradiction.
    + exfalso; apply Hx, Ht; reflexivity.
  - split; split; intros Hx; try reflexivity.
    + symmetry in Hx; contradiction.
    + apply Ht in Hx; discriminate.
    + intros Hc; apply Ht in Hc; discriminate.
Qed.

Lemma ring_test_spec (rings irings orings k : int) :
  ring_test rings irings orings k = true
  <-> (0 < k /\ k < irings) \/ (rings - orings < k /\ k < rings).
Proof.
  unfold ring_test.
  rewrite orb_true_iff, !andb_true_iff, !Z.gtb_ltb, !Z.ltb_lt. reflexivity.
Qed.

Lemma label_test_spec (rings irings orings k : int) :
  label_test rings irings orings k = true <-> k <= irings \/ k > rings - orings.
Proof.
  unfold label_test. rewrite orb_true_iff, Z.leb_le, Z.gtb_ltb, Z.ltb_lt. lia.
Qed.

(** *** Ring outlines *)

Lemma draw_ring_runs (cx cy : D) (radius rings irings orings k : int) (w : world D) :
  runs (draw_ring cx cy radius rings irings orings k) w
    [arc cx cy (ring_radius (of_int radius) rings k) d0 (d2 * M_PI)%D;
     if ring_test rings irings orings k
     then set_source_rgba d1 d1 d1 d1 else set_source_rgba d0 d0 d0 d1;
     stroke] tt.
Proof.
  unfold draw_ring. fold (ring_test rings irings orings k).
  eapply runs_bind with (ops1 := [_]) (ops2 := [_; _]); [apply runs_emit|].
  eapply runs_bind with (ops1 := [_]) (ops2 := [_]); [|apply runs_emit].
  destruct (ring_test rings irings orings k); apply runs_emit.
Qed.

Lemma draw_ring_marks (cx cy : D) (radius rings irings orings k : int) (p : pen D) :
  path p = [] ->
  let ops :=
    [arc cx cy (ring_radius (of_int radius) rings k) d0 (d2 * M_PI)%D;
     if ring_test rings irings orings k
     then set_source_rgba d1 d1 d1 d1 else set_source_rgba d0 d0 d0 d1;
     stroke] in
  path (fst (draw p ops)) = [] /\
  snd (draw p ops) =
    [stroked (colour (if ring_test rings irings orings k then white else black))
       [arc cx cy (ring_radius (of_int radius) rings k) d0 (d2 * M_PI)%D]].
Proof.
  intros Hp ops. subst ops.
  destruct (ring_test rings irings orings k); simpl; rewrite Hp; split; reflexivity.
Qed.

(** The outline loop strokes one circle per ring index, from 0 to
    [rings], each alone on its path. *)
Lemma draw_rings_marks (cx cy : D) (radius rings irings orings : int) (w : world D) :
  exists ops,
    runs (draw_rings cx cy radius rings irings orings) w ops tt /\
    forall p, path p = [] ->
      path (fst (draw p ops)) = [] /\
      snd (draw p ops) =
        flat_map (fun k =>
          [stroked (colour (if ring_test rings irings orings k then white else black))
             [arc cx cy (ring_radius (of_int radius) rings k) d0 (d2 * M_PI)%D]])
          (int_range 0 rings).
Proof.
  unfold draw_rings. apply for_each_marks.
  intros k w'. eexists. split; [apply draw_ring_runs|].
  intros p Hp. apply draw_ring_marks. assumption.
Qed.

(** C5: for every ring index k in [0, N], the k-th outline the loop
    strokes is the circle of radius [ring_radius radius N k], and its
    ink is white if and only if (0 < k and k < inner_rings) or
    (N - outer_rings < k and k < N), and black otherwise.  The loop
    starts on an empty path, as it does in [main], where a [fill]
    comes before it; white and black are the two inks of the source,
    taken to differ. *)
Theorem ring_outline_colour (cx cy : D) (radius rings irings orings : int)
    (w : world D) (i : source D) (sv : list (source D)) (k : int) :
  white (D := D) <> black ->
  0 <= k <= rings ->
  exists c,
    nth_error
      (marks {| ink := i; saved := sv; path := [] |}
         (drawn (draw_rings cx cy radius rings irings orings) w))
      (Z.to_nat k)
    = Some (stroked (colour c)
              [arc cx cy (ring_radius (of_int radius) rings k) d0 (d2 * M_PI)%D]) /\
    (c = white <-> (0 < k /\ k < irings) \/ (rings - orings < k /\ k < rings)) /\
    (c = black <-> ~ ((0 < k /\ k < irings) \/ (rings - orings < k /\ k < rings))).
Proof.
  intros Hwb Hk.
  destruct (draw_rings_marks cx cy radius rings irings orings w) as [ops [Hr Hm]].
  rewrite (runs_drawn Hr). unfold marks.
  destruct (Hm {| ink := i; saved := sv; path := [] |} eq_refl) as [_ ->].
  exists (if ring_test rings irings orings k then white else black).
  split.
  - replace (Z.to_nat k) with (1 * Z.to_nat (k - 0) + 0)%nat by lia.
    rewrite flat_map_nth with (a := k); auto using int_range_nth.
  - apply two_inks; [assumption|]. apply ring_test_spec.
Qed.

(** *** Ring numbers *)

Lemma aligned_text_runs (env : Env D) (x y : D) (align : Z) (t : string)
    (w : world D) :
  exists x' y',
    runs (aligned_text env x y align t) w
      [save; move_to x' y'; show_text t; restore] tt.
Proof.
  unfold aligned_text. do 2 eexists.
  eapply runs_bind with (ops1 := []); [apply runs_history|].
  eapply runs_bind with (ops1 := [_]) (ops2 := [_; _; _]); [apply runs_emit|].
  eapply runs_bind with (ops1 := [_]) (ops2 := [_; _]); [apply runs_emit|].
  eapply runs_bind with (ops1 := [_]) (ops2 := [_]); apply runs_emit.
Qed.

(** One ring number: the source is set once, then the number is shown
    four times; [save] and [restore] around each leave the source as
    it was. *)
Lemma draw_ring_number_marks (env : Env D) (cx cy rs : D)
    (rings irings orings k : int) (w : world D) :
  exists ops,
    runs (draw_ring_number env cx cy rs rings irings orings k) w ops tt /\
    forall p, True ->
      True /\
      snd (draw p ops) =
        repeat (text (colour (if label_test rings irings orings k
                              then white else black)) (show_int k)) 4.
Proof.
  unfold draw_ring_number. fold (label_test rings irings orings k).
  set (centred := Z.lor ALIGN_H_CENTER ALIGN_V_CENTER).
  set (op := if label_test rings irings orings k
             then set_source_rgba d1 d1 d1 d1 else set_source_rgba d0 d0 d0 d1).
  set (shown x y := [save; move_to x y; show_text (show_int k); @restore D]).
  assert (H0 : runs (if label_test rings irings orings k
                     then emit (set_source_rgba d1 d1 d1 d1)
                     else emit (set_source_rgba d0 d0 d0 d1)) w [op] tt).
  { subst op. destruct (label_test rings irings orings k); apply runs_emit. }
  destruct (aligned_text_runs env (cx + of_int k * rs)%D cy centred (show_int k)
              (extend w [op])) as (x1 & y1 & H1).
  destruct (aligned_text_runs env (cx - of_int k * rs)%D cy centred (show_int k)
              (extend (extend w [op]) (shown x1 y1))) as (x2 & y2 & H2).
  destruct (aligned_text_runs env cx (cy + of_int k * rs)%D centred (show_int k)
              (extend (extend (extend w [op]) (shown x1 y1)) (shown x2 y2)))
    as (x3 & y3 & H3).
  destruct (aligned_text_runs env cx (cy - of_int k * rs)%D centred (show_int k)
              (extend (extend (extend (extend w [op]) (shown x1 y1)) (shown x2 y2))
                 (shown x3 y3))) as (x4 & y4 & H4).
  eexists. split.
  - eapply runs_bind; [exact H0|].
    eapply runs_bind; [exact H1|].
    eapply runs_bind; [exact H2|].
    eapply runs_bind; [exact H3|].
    exact H4.
  - intros p _. split; [exact I|].
    subst op shown. destruct (label_test rings irings orings k); reflexivity.
Qed.

Lemma draw_ring_numbers_marks (env : Env D) (cx cy rs : D)
    (rings irings orings : int) (w : world D) :
  exists ops,
    runs (draw_ring_numbers env cx cy rs rings irings orings) w ops tt /\
    forall p,
      snd (draw p ops) =
        flat_map (fun k =>
          repeat (text (colour (if label_test rings irings orings k
                                then white else black)) (show_int k)) 4)
          (int_range 1 rings).
Proof.
  unfold draw_ring_numbers.
  destruct (for_each_marks (fun _ => True)
              (fun k => repeat (text (colour (if label_test rings irings orings k
                                              then white else black))
                                  (show_int k)) 4)
              (draw_ring_number env cx cy rs rings irings orings)
              (draw_ring_number_marks env cx cy rs rings irings orings)
              (int_range 1 rings) w) as [ops [Hr Hm]].
  exists ops. split; [assumption|]. intros p. apply Hm. exact I.
Qed.

(** C6: for every ring index k in [1, N], the number k is shown four
    times (the marks 4(k-1) to 4(k-1)+3 of the loop), each time in
    white if and only if k <= inner_rings or k > N - outer_rings, and
    in black otherwise: the bounds of the outline rule moved by one,
    and inclusive. *)
Theorem ring_label_colour (env : Env D) (cx cy rs : D) (rings irings orings : int)
    (w : world D) (p : pen D) (k : int) (j : nat) :
  white (D := D) <> black ->
  1 <= k <= rings -> (j < 4)%nat ->
  exists c,
    nth_error
      (marks p (drawn (draw_ring_numbers env cx cy rs rings irings orings) w))
      (4 * Z.to_nat (k - 1) + j)
    = Some (text (colour c) (show_int k)) /\
    (c = white <-> k <= irings \/ k > rings - orings) /\
    (c = black <-> ~ (k <= irings \/ k > rings - orings)).
Proof.
  intros Hwb Hk Hj.
  destruct (draw_ring_numbers_marks env cx cy rs rings irings orings w)
    as [ops [Hr Hm]].
  rewrite (runs_drawn Hr). unfold marks. rewrite Hm.
  exists (if label_test rings irings orings k then white else black).
  split.
  - rewrite flat_map_nth with (a := k); auto using int_range_nth.
    do 4 (destruct j as [|j]; [reflexivity|]). lia.
  - apply two_inks; [assumption|]. apply label_test_spec.
Qed.

End Runs.

(** White and black differ, in exact and in binary64 arithmetic. *)
Lemma white_black_Q : white (D := Q) <> black.
Proof. discriminate. Qed.

Lemma white_black_b64 : white (D := float) <> black.
Proof.
  intros E.
  apply (f_equal (fun c => PrimFloat.eqb (fst (fst (fst c))) PrimFloat.zero)) in E.
  vm_compute in E. discriminate.
Qed.

Lemma ring_outline_colour_witness :
  white (D := Q) <> black /\ 0 <= 7 <= 8 /\
  exists c,
    nth_error
      (marks {| ink := colour black; saved := []; path := [] |}
         (drawn (draw_rings 306%Q 396%Q 286 8 3 2) start))
      (Z.to_nat 7)
    = Some (stroked (colour c)
              [arc 306%Q 396%Q (ring_radius (of_int 286) 8 7) d0 (d2 * M_PI)%D]) /\
    (c = white <-> (0 < 7 /\ 7 < 3) \/ (8 - 2 < 7 /\ 7 < 8)) /\
    (c = black <-> ~ ((0 < 7 /\ 7 < 3) \/ (8 - 2 < 7 /\ 7 < 8))).
Proof.
  assert (Hk : 0 <= 7 <= 8) by lia.
  split; [exact white_black_Q|]. split; [exact Hk|].
  exact (@ring_outline_colour Q Q_double 306%Q 396%Q 286 8 3 2 start
           (colour black) [] 7 white_black_Q Hk).
Defined.

Lemma ring_label_colour_witness :
  white (D := Q) <> black /\ 1 <= 3 <= 8 /\ (0 < 4)%nat /\
  exists c,
    nth_error default_labels (4 * Z.to_nat (3 - 1) + 0)
    = Some (text (colour c) (show_int 3)) /\
    (c = white <-> 3 <= 3 \/ 3 > 8 - 2) /\
    (c = black <-> ~ (3 <= 3 \/ 3 > 8 - 2)).
Proof.
  assert (Hk : 1 <= 3 <= 8) by lia.
  assert (Hj : (0 < 4)%nat) by lia.
  split; [exact white_black_Q|]. split; [exact Hk|]. split; [exact Hj|].
  exact (@ring_label_colour Q Q_double (plain_env false) 306%Q 396%Q
           (ring_spacing 286%Q 8) 8 3 2 start
           {| ink := colour black; saved := []; path := [] |} 3 0%nat
           white_black_Q Hk Hj).
Defined.

(** The claim's examples, by running the loop: with 8 rings, 3 inner
    and 2 outer, the number 3 is white, 4 is black and 7 is white. *)
Example default_label_colours :
  nth_error default_labels (4 * 2) = Some (text (colour white) "3") /\
  nth_error default_labels (4 * 3) = Some (text (colour black) "4") /\
  nth_error default_labels (4 * 6) = Some (text (colour white) "7").
Proof. vm_compute. repeat split. Qed.

(** The outlines of the same target: ring 3 is black where its number
    is white, ring 7 is white, rings 0 and 8 are black. *)
Example default_outline_colours :
  map (fun m => match m with
                | stroked (colour c) _ => Qeq_bool (fst (fst (fst c))) 1
                | _ => false
                end)
    (marks {| ink := colour black; saved := []; path := [] |}
       (drawn (draw_rings 306%Q 396%Q 286 8 3 2) start))
  = [false; true; true; false; false; false; false; true; false].
Proof. vm_compute. reflexivity. Qed.

(** ** The usage exit *)

Section Options.
Context {D : Type} `{Double D}.
Variable env : Env D.

Lemma usage_run {A} (w : world D) : usage (A := A) w = (Exit 2, usage_exit w).
Proof. reflexivity. Qed.

(** An option the switch has a case for is stored and the loop goes
    on; only [-s] touches the size argument. *)
Lemma set_option_known (o : options D) (opt : ascii) (optarg : string) (w : world D) :
  known_option opt = true ->
  exists o',
    set_option env o opt optarg w = (Done o', w) /\
    opt_geom o' = if Ascii.eqb opt "s" then optarg else opt_geom o.
Proof.
  unfold known_option, known_options, set_option. simpl existsb.
  destruct o as [geom margin fname rings irings orings linew bg].
  intros Hk.
  repeat match goal with
         | |- context [Ascii.eqb opt ?c] =>
             destruct (Ascii.eqb opt c) eqn:?;
             [eexists; split; reflexivity|]
         end.
  discriminate.
Qed.

(** Any other character falls to [default:] and [usage]. *)
Lemma set_option_unknown (o : options D) (opt : ascii) (optarg : string)
    (w : world D) :
  known_option opt = false ->
  set_option env o opt optarg w = (Exit 2, usage_exit w).
Proof.
  unfold known_option, known_options, set_option. simpl existsb.
  destruct o as [geom margin fname rings irings orings linew bg].
  intros Hk.
  repeat match goal with
         | |- context [Ascii.eqb opt ?c] =>
             destruct (Ascii.eqb opt c) eqn:?; [discriminate|]
         end.
  reflexivity.
Qed.

Lemma parse_options_known (args : list (ascii * string)) :
  Forall (fun a => known_option (fst a) = true) args ->
  forall o w, exists o',
    parse_options env args o w = (Done o', w) /\
    opt_geom o' = geom_after args (opt_geom o).
Proof.
  induction 1 as [|[opt optarg] args Hk _ IH]; intros o w.
  - exists o. split; reflexivity.
  - simpl in Hk. simpl parse_options. unfold bind.
    destruct (set_option_known o opt optarg w Hk) as [o1 [-> Hg]].
    destruct (IH o1 w) as [o' [-> Hg']].
    exists o'. split; [reflexivity|]. simpl. rewrite Hg', Hg. reflexivity.
Qed.

Lemma parse_options_unknown (args : list (ascii * string)) :
  Exists (fun a => known_option (fst a) = false) args ->
  forall o w, parse_options env args o w = (Exit 2, usage_exit w).
Proof.
  induction args as [|[opt optarg] args IH]; intros Hex o w.
  - inversion Hex.
  - simpl parse_options. unfold bind.
    destruct (known_option opt) eqn:Hk.
    + destruct (set_option_known o opt optarg w Hk) as [o1 [-> _]].
      apply IH. inversion Hex as [? ? Hh|? ? Ht]; subst; [|assumption].
      simpl in Hh. congruence.
    + rewrite set_option_unknown by assumption. reflexivity.
Qed.

Lemma render_no_separator (fuel : nat) (o : options D) (w : world D) :
  strchr (opt_geom o) "x" = None ->
  render env fuel o w = (Exit 2, usage_exit w).
Proof. unfold render. intros ->. reflexivity. Qed.

(** C8: when [getopt] hands [main] an option character the switch has
    no case for (the ['?'] it returns for a flag that is not in the
    option string), or when the size argument in effect (that of the
    last [-s]) holds no ['x'], the program exits with status 2, the
    usage text is what it has written to [cerr], and it has made no
    Cairo call: the PDF surface, and with it the output file, is never
    created.  This holds for every environment and in every
    arithmetic. *)
Theorem usage_exit_status (fuel : nat) (args : list (ascii * string)) :
  Exists (fun a => known_option (fst a) = false) args \/
  strchr (geom_after args DEFAULT_GEOM) "x" = None ->
  main env fuel args start = (Exit 2, {| canvas := []; cerr := usage_text |}).
Proof.
  intros Hbad. unfold main, bind.
  destruct (Exists_dec (fun a => known_option (fst a) = false) args) as [Hex|Hall].
  { intros a. destruct (known_option (fst a)); [right; discriminate|left; reflexivity]. }
  - rewrite parse_options_unknown by assumption. reflexivity.
  - destruct Hbad as [Hex|Hx]; [contradiction|].
    assert (Hk : Forall (fun a => known_option (fst a) = true) args).
    { apply Forall_forall. intros a Ha.
      destruct (known_option (fst a)) eqn:E; [reflexivity|].
      exfalso. apply Hall. apply Exists_exists. exists a. auto. }
    destruct (parse_options_known Hk (initial_options env) start) as [o [-> Hg]].
    apply render_no_separator. rewrite Hg. exact Hx.
Qed.

End Options.

Lemma usage_exit_status_witness :
  (strchr (geom_after [("s"%char, "10"%string)] DEFAULT_GEOM) "x" = None /\
   main (D := float) (plain_env false) 0 [("s"%char, "10"%string)] start
     = (Exit 2, {| canvas := []; cerr := usage_text |})) /\
  (Exists (fun a => known_option (fst a) = false) [("?"%char, EmptyString)] /\
   main (D := float) (plain_env false) 0 [("?"%char, EmptyString)] start
     = (Exit 2, {| canvas := []; cerr := usage_text |})).
Proof.
  assert (Hx : strchr (geom_after [("s"%char, "10"%string)] DEFAULT_GEOM) "x" = None)
    by reflexivity.
  assert (Hu : Exists (fun a => known_option (fst a) = false)
                 [("?"%char, EmptyString)])
    by (constructor; reflexivity).
  split; split; try assumption.
  - exact (@usage_exit_status float b64_double (plain_env false) 0%nat
             [("s"%char, "10"%string)] (or_intror Hx)).
  - exact (@usage_exit_status float b64_double (plain_env false) 0%nat
             [("?"%char, EmptyString)] (or_introl Hu)).
Defined.

(** ** The background *)

Section Grows.
Context {D : Type} `{Double D}.
Variable env : Env D.
Local Open Scope prog_scope.

Lemma grows_ret {A} (a : A) : grows (ret (D := D) a).
Proof. intros w. exists []. simpl. rewrite app_nil_r. reflexivity. Qed.

Lemma grows_emit (op : cairo_op D) : grows (emit op).
Proof. intros w. exists [op]. reflexivity. Qed.

Lemma grows_eprint (s : string) : grows (eprint (D := D) s).
Proof. intros w. exists []. simpl. rewrite app_nil_r. reflexivity. Qed.

Lemma grows_exit {A} (status : int) : grows (exit (D := D) (A := A) status).
Proof. intros w. exists []. simpl. rewrite app_nil_r. reflexivity. Qed.

Lemma grows_history : grows (history (D := D)).
Proof. intros w. exists []. simpl. rewrite app_nil_r. reflexivity. Qed.

Lemma grows_stop {A} (o : outcome A) : grows (fun w : world D => (o, w)).
Proof. intros w. exists []. simpl. rewrite app_nil_r. reflexivity. Qed.

Lemma grows_bind {A B} (c : prog D A) (k : A -> prog D B) :
  grows c -> (forall a, grows (k a)) -> grows (bind c k).
Proof.
  intros Hc Hk w. unfold bind. destruct (Hc w) as [ops1 H1].
  destruct (c w) as [[a|s| |] w1]; simpl in H1; try (exists ops1; exact H1).
  destruct (Hk a w1) as [ops2 H2]. exists (ops1 ++ ops2).
  rewrite H2, H1, app_assoc. reflexivity.
Qed.

Lemma grows_if {A} (b : bool) (c1 c2 : prog D A) :
  grows c1 -> grows c2 -> grows (if b then c1 else c2).
Proof. destruct b; auto. Qed.

Lemma grows_for_each {A} (l : list A) (body : A -> prog D unit) :
  (forall a, grows (body a)) -> grows (for_each l body).
Proof.
  intros Hb. induction l as [|a l IH]; simpl.
  - apply grows_ret.
  - apply grows_bind; auto.
Qed.

(** Peels the binds of a sequence and closes the single calls. *)
Ltac grows_steps :=
  repeat lazymatch goal with
    | |- grows (bind _ _) => apply grows_bind; [|intros]
    | |- grows (if _ then _ else _) => apply grows_if
    | |- grows (for_each _ _) => apply grows_for_each; intros
    | |- grows (emit _) => apply grows_emit
    | |- grows (ret _) => apply grows_ret
    | |- grows (eprint _) => apply grows_eprint
    | |- grows (exit _) => apply grows_exit
    | |- grows history => apply grows_history
    | |- grows (fun w => (_, w)) => apply grows_stop
    end.

Lemma grows_aligned_text (x y : D) (align : Z) (t : string) :
  grows (aligned_text env x y align t).
Proof. unfold aligned_text. grows_steps. Qed.

Lemma grows_check_status : grows (check_status env).
Proof.
  unfold check_status. apply grows_bind; [apply grows_history|].
  intros h. destruct (cairo_status env h); grows_steps.
Qed.

Lemma grows_target_eye (x y r : D) : grows (target_eye x y r).
Proof. unfold target_eye. grows_steps. Qed.

Lemma grows_put (f : fish D) (x y : D) : grows (put f x y).
Proof. unfold put. grows_steps. Qed.

Lemma grows_fish_new : grows (fish_new env).
Proof.
  unfold fish_new. apply grows_bind; [apply grows_emit|]. intros _.
  destruct (png_load env FISH_IMAGE) as [msg|[[[ulx uly] lrx] lry]]; grows_steps.
Qed.

Lemma grows_draw_disks (cx cy : D) (radius rings irings orings : int) :
  grows (draw_disks cx cy radius rings irings orings).
Proof. unfold draw_disks. grows_steps. Qed.

Lemma grows_draw_rings (cx cy : D) (radius rings irings orings : int) :
  grows (draw_rings cx cy radius rings irings orings).
Proof. unfold draw_rings, draw_ring. grows_steps. Qed.

Lemma grows_draw_ring_numbers (cx cy rs : D) (rings irings orings : int) :
  grows (draw_ring_numbers env cx cy rs rings irings orings).
Proof.
  unfold draw_ring_numbers, draw_ring_number. grows_steps; apply grows_aligned_text.
Qed.

Lemma grows_draw_eyes (cx cy rs : D) (radius rings : int) :
  grows (draw_eyes cx cy rs radius rings).
Proof. unfold draw_eyes. grows_steps; apply grows_target_eye. Qed.

Lemma grows_draw_koi (width height margin : D) :
  grows (draw_koi env width height margin).
Proof.
  unfold draw_koi, fish_delete.
  apply grows_bind; [apply grows_fish_new|]. intros f.
  grows_steps; apply grows_put.
Qed.

Lemma grows_draw_labels (fuel : nat) (width height margin rs iw ih : D) :
  grows (draw_labels env fuel width height margin rs iw ih).
Proof.
  unfold draw_labels. apply grows_bind.
  - destruct (spacing_caption fuel rs); apply grows_stop.
  - intros s. grows_steps; apply grows_aligned_text.
Qed.

(** What [render] does once the line width is set. *)
Lemma grows_after_line_width (fuel : nat) (o : options D) (width height margin : D)
    (radius : int) :
  let cx := (width / d2)%D in
  let cy := (height / d2)%D in
  let rs := ring_spacing (of_int radius) (opt_rings o) in
  grows
    (draw_disks cx cy radius (opt_rings o) (opt_irings o) (opt_orings o) ;;
     draw_rings cx cy radius (opt_rings o) (opt_irings o) (opt_orings o) ;;
     emit (select_font_face "Helvetica" "CAIRO_FONT_SLANT_NORMAL"
             "CAIRO_FONT_WEIGHT_BOLD") ;;
     emit (set_font_size (rs / d2)%D) ;;
     draw_ring_numbers env cx cy rs (opt_rings o) (opt_irings o) (opt_orings o) ;;
     emit new_path ;;
     draw_eyes cx cy rs radius (opt_rings o) ;;
     im <- draw_koi env width height margin ;;
     draw_labels env fuel width height margin rs (fst im) (snd im) ;;
     emit show_page ;;
     check_status env ;;
     emit destroy ;;
     emit (surface_destroy "surface") ;;
     ret 0%Z).
Proof.
  intros cx cy rs.
  grows_steps;
    lazymatch goal with
    | |- grows (draw_disks _ _ _ _ _ _) => apply grows_draw_disks
    | |- grows (draw_rings _ _ _ _ _ _) => apply grows_draw_rings
    | |- grows (draw_ring_numbers _ _ _ _ _ _ _) => apply grows_draw_ring_numbers
    | |- grows (draw_eyes _ _ _ _ _) => apply grows_draw_eyes
    | |- grows (draw_koi _ _ _ _) => apply grows_draw_koi
    | |- grows (draw_labels _ _ _ _ _ _ _ _) => apply grows_draw_labels
    | |- grows (check_status _) => apply grows_check_status
    end.
Qed.

Lemma starts_grows {A} (c : prog D A) (w : world D) : grows c -> starts c w [].
Proof. intros Hc. destruct (Hc w) as [ops Hops]. exists ops. exact Hops. Qed.

Lemma starts_bind {A B} (c : prog D A) (k : A -> prog D B) w ops1 ops2 a :
  runs c w ops1 a -> starts (k a) (extend w ops1) ops2 ->
  starts (bind c k) w (ops1 ++ ops2).
Proof.
  unfold runs, starts, bind. intros -> [rest Hr]. exists rest.
  rewrite Hr. simpl. rewrite <- !app_assoc. reflexivity.
Qed.

Lemma runs_check_status (w : world D) :
  cairo_status env (canvas w) = None -> runs (check_status env) w [] tt.
Proof.
  intros Hs. unfold runs, check_status, bind, history. rewrite Hs.
  unfold ret. rewrite extend_nil. reflexivity.
Qed.

Lemma runs_draw_background (bg : bool) (width height margin : D) (w : world D) :
  runs (draw_background bg width height margin) w
    (if bg
     then [rectangle margin margin (width - d2 * margin)%D (height - d2 * margin)%D;
           set_source_rgba (dec 95 2) (dec 95 2) (dec 8 1) d1; fill]
     else []) tt.
Proof.
  unfold runs, draw_background. destruct bg.
  - unfold bind, emit, extend. simpl. rewrite <- !app_assoc. reflexivity.
  - unfold ret. rewrite extend_nil. reflexivity.
Qed.

(** C9, the failing input: [target] run with no option at all.
    [bool opt_bg;] has no initializer and only [-b] assigns it, so the
    test [if (opt_bg)] reads whatever the variable holds.  In every
    environment in which the surface is created without error, the
    first Cairo calls of the run are the creation of the surface and
    of its context, then, when the variable happens to hold [true],
    the background rectangle, its yellowish source and [fill], and
    only then the line width.  The command line is the same in both
    cases: what is drawn is not determined by it. *)
Theorem background_follows_uninitialised_flag (fuel : nat) :
  let width := inch_pt (atof env DEFAULT_GEOM) in
  let height := inch_pt (atof env "11") in
  let margin := inch_pt DEFAULT_MARGIN in
  let surface := pdf_surface_create DEFAULT_FNAME width height in
  cairo_status env [surface; create] = None ->
  exists rest,
    canvas (snd (main env fuel [] start)) =
      [surface; create] ++
      (if opt_bg_indeterminate env
       then [rectangle margin margin (width - d2 * margin)%D (height - d2 * margin)%D;
             set_source_rgba (dec 95 2) (dec 95 2) (dec 8 1) d1; fill]
       else []) ++
      set_line_width (inch_pt DEFAULT_LINEW) :: rest.
Proof.
  intros width height margin surface Hok.
  set (bg_ops := if opt_bg_indeterminate env then _ else _).
  enough (Hs : starts (main env fuel []) start
                 ([] ++ [surface] ++ [create] ++ [] ++ bg_ops
                    ++ [set_line_width (inch_pt DEFAULT_LINEW)] ++ [])).
  { destruct Hs as [rest Hr]. exists rest. rewrite Hr. simpl.
    rewrite <- !app_assoc. reflexivity. }
  unfold main. simpl parse_options.
  eapply starts_bind; [apply runs_ret|].
  unfold render. simpl strchr. cbv iota. simpl next_char. simpl opt_geom.
  simpl opt_fname. simpl opt_margin. simpl opt_bg. simpl opt_linew.
  fold width height margin surface.
  eapply starts_bind; [apply runs_emit|].
  eapply starts_bind; [apply runs_emit|].
  eapply starts_bind; [apply runs_check_status; exact Hok|].
  eapply starts_bind; [apply runs_draw_background|].
  eapply starts_bind; [apply runs_emit|].
  apply starts_grows. apply grows_after_line_width.
Qed.

End Grows.

Lemma background_follows_uninitialised_flag_witness :
  cairo_status (plain_env (D := float) true)
    [pdf_surface_create DEFAULT_FNAME 612%float 792%float; create] = None /\
  exists rest,
    canvas (snd (main (D := float) (plain_env true) 100 [] start)) =
      [pdf_surface_create DEFAULT_FNAME 612%float 792%float; create] ++
      [rectangle 18%float 18%float 576%float 756%float;
       set_source_rgba (dec 95 2) (dec 95 2) (dec 8 1) 1%float; fill] ++
      set_line_width (inch_pt DEFAULT_LINEW) :: rest.
Proof.
  assert (Hok : cairo_status (plain_env (D := float) true)
                  [pdf_surface_create DEFAULT_FNAME 612%float 792%float; create]
                = None) by reflexivity.
  split; [exact Hok|].
  exact (@background_follows_uninitialised_flag float b64_double (plain_env true)
           100%nat Hok).
Defined.

(** The two runs side by side, on the same empty command line: the
    first thing put on the page is the yellowish rectangle when the
    flag reads [true], and the blue disk when it reads [false]. *)
Example first_mark_with_and_without_garbage :
  let page bg0 :=
    marks {| ink := colour black; saved := []; path := [] |}
      (canvas (snd (main (D := float) (plain_env bg0) 100 [] start))) in
  nth_error (page true) 0
    = Some (filled (colour (dec 95 2, dec 95 2, dec 8 1, 1%float))
              [rectangle 18%float 18%float 576%float 756%float]) /\
  nth_error (page false) 0
    = Some (filled (colour (dec 3 1, dec 5 1, 1%float, 1%float))
              [arc 306%float 396%float 286%float 0%float (d2 * M_PI)%D]).
Proof. vm_compute. split; reflexivity. Qed.

(** ** The image *)

Section Quiet.
Context {D : Type} `{Double D}.
Variable env : Env D.
Local Open Scope prog_scope.

Lemma quiet_ret {A} (a : A) : quiet (ret (D := D) a).
Proof. intros w. exists [], a. apply runs_ret. Qed.

Lemma quiet_emit (op : cairo_op D) : quiet (emit op).
Proof. intros w. exists [op], tt. apply runs_emit. Qed.

Lemma quiet_history : quiet (history (D := D)).
Proof. intros w. exists [], (canvas w). apply runs_history. Qed.

Lemma quiet_bind {A B} (c : prog D A) (k : A -> prog D B) :
  quiet c -> (forall a, quiet (k a)) -> quiet (bind c k).
Proof.
  intros Hc Hk w. destruct (Hc w) as (ops1 & a & H1).
  destruct (Hk a (extend w ops1)) as (ops2 & b & H2).
  exists (ops1 ++ ops2), b. eapply runs_bind; eassumption.
Qed.

Lemma quiet_if {A} (b : bool) (c1 c2 : prog D A) :
  quiet c1 -> quiet c2 -> quiet (if b then c1 else c2).
Proof. destruct b; auto. Qed.

Lemma quiet_for_each {A} (l : list A) (body : A -> prog D unit) :
  (forall a, quiet (body a)) -> quiet (for_each l body).
Proof.
  intros Hb. induction l as [|a l IH]; simpl.
  - apply quiet_ret.
  - apply quiet_bind; auto.
Qed.

(** Peels the binds of a sequence and closes the single calls. *)
Ltac quiet_steps :=
  repeat lazymatch goal with
    | |- quiet (bind _ _) => apply quiet_bind; [|intros]
    | |- quiet (if _ then _ else _) => apply quiet_if
    | |- quiet (for_each _ _) => apply quiet_for_each; intros
    | |- quiet (emit _) => apply quiet_emit
    | |- quiet (ret _) => apply quiet_ret
    | |- quiet history => apply quiet_history
    end.

Lemma quiet_aligned_text (x y : D) (align : Z) (t : string) :
  quiet (aligned_text env x y align t).
Proof. unfold aligned_text. quiet_steps. Qed.

Lemma quiet_draw_background (bg : bool) (width height margin : D) :
  quiet (draw_background bg width height margin).
Proof. unfold draw_background. quiet_steps. Qed.

Lemma quiet_draw_disks (cx cy : D) (radius rings irings orings : int) :
  quiet (draw_disks cx cy radius rings irings orings).
Proof. unfold draw_disks. quiet_steps. Qed.

Lemma quiet_draw_rings (cx cy : D) (radius rings irings orings : int) :
  quiet (draw_rings cx cy radius rings irings orings).
Proof. unfold draw_rings, draw_ring. quiet_steps. Qed.

Lemma quiet_draw_ring_numbers (cx cy rs : D) (rings irings orings : int) :
  quiet (draw_ring_numbers env cx cy rs rings irings orings).
Proof.
  unfold draw_ring_numbers, draw_ring_number. quiet_steps; apply quiet_aligned_text.
Qed.

Lemma quiet_draw_eyes (cx cy rs : D) (radius rings : int) :
  quiet (draw_eyes cx cy rs radius rings).
Proof. unfold draw_eyes, target_eye. quiet_steps. Qed.

Lemma quiet_check_status :
  (forall h, cairo_status env h = None) -> quiet (check_status env).
Proof.
  intros Hok. unfold check_status. apply quiet_bind; [apply quiet_history|].
  intros h. rewrite Hok. apply quiet_ret.
Qed.

Lemma ends_bind {A B} (c : prog D A) (k : A -> prog D B) w o s :
  quiet c -> (forall a w', ends (k a) w' o s) -> ends (bind c k) w o s.
Proof.
  intros Hc Hk. destruct (Hc w) as (ops & a & Hr).
  destruct (Hk a (extend w ops)) as (w' & Hw' & Hs).
  exists w'. unfold bind. rewrite Hr. split; assumption.
Qed.

Lemma ends_exit_bind {A B} (c : prog D A) (k : A -> prog D B) w status s :
  ends c w (Exit status) s -> ends (bind c k) w (Exit status) s.
Proof.
  intros (w' & Hw' & Hs). exists w'. unfold bind. rewrite Hw'. split; trivial.
Qed.

Lemma ends_fish_new (msg : string) (w : world D) :
  png_load env FISH_IMAGE = inl msg ->
  ends (fish_new env) w (Exit 1)
    ("Could not load image " ++ FISH_IMAGE ++ ": " ++ msg ++ nl)%string.
Proof.
  intros Hload. unfold fish_new. apply ends_bind; [apply quiet_emit|].
  intros _ w'. rewrite Hload. eexists. split; reflexivity.
Qed.

(** A missing or unreadable [koi.png] is fatal: when the options are
    all known, the size argument has its ['x'] and Cairo reports no
    error, the program exits with status 1 and what it has written to
    [cerr] is the message that names the file and gives the reason. *)
Theorem missing_image_exit (fuel : nat) (args : list (ascii * string)) (msg : string) :
  Forall (fun a => known_option (fst a) = true) args ->
  strchr (geom_after args DEFAULT_GEOM) "x" <> None ->
  (forall h, cairo_status env h = None) ->
  png_load env FISH_IMAGE = inl msg ->
  exists w,
    main env fuel args start = (Exit 1, w) /\
    cerr w = ("Could not load image koi.png: " ++ msg ++ nl)%string.
Proof.
  intros Hk Hx Hok Hload.
  enough (He : ends (main env fuel args) start (Exit 1)
                 ("Could not load image " ++ FISH_IMAGE ++ ": " ++ msg ++ nl)%string).
  { destruct He as (w & Hw & Hs). exists w. split; assumption. }
  unfold main.
  destruct (parse_options_known env Hk (initial_options env) start) as [o [Hp Hg]].
  change (opt_geom (initial_options env)) with DEFAULT_GEOM in Hg.
  assert (Hr : forall w, ends (render env fuel o) w (Exit 1)
                 ("Could not load image " ++ FISH_IMAGE ++ ": " ++ msg ++ nl)%string).
  { intros w. unfold render. rewrite Hg.
    destruct (strchr (geom_after args DEFAULT_GEOM) "x") as [s|]; [|contradiction].
    repeat lazymatch goal with
      | |- ends (bind (emit _) _) _ _ _ =>
          apply ends_bind; [apply quiet_emit|intros ? ?]
      | |- ends (bind (check_status _) _) _ _ _ =>
          apply ends_bind; [apply quiet_check_status; exact Hok|intros ? ?]
      | |- ends (bind (draw_background _ _ _ _) _) _ _ _ =>
          apply ends_bind; [apply quiet_draw_background|intros ? ?]
      | |- ends (bind (draw_disks _ _ _ _ _ _) _) _ _ _ =>
          apply ends_bind; [apply quiet_draw_disks|intros ? ?]
      | |- ends (bind (draw_rings _ _ _ _ _ _) _) _ _ _ =>
          apply ends_bind; [apply quiet_draw_rings|intros ? ?]
      | |- ends (bind (draw_ring_numbers _ _ _ _ _ _ _) _) _ _ _ =>
          apply ends_bind; [apply quiet_draw_ring_numbers|intros ? ?]
      | |- ends (bind (draw_eyes _ _ _ _ _) _) _ _ _ =>
          apply ends_bind; [apply quiet_draw_eyes|intros ? ?]
      end.
    apply ends_exit_bind. unfold draw_koi. apply ends_exit_bind.
    apply ends_fish_new. exact Hload. }
  destruct (Hr start) as (w & Hw & Hs).
  exists w. unfold bind. rewrite Hp. split; assumption.
Qed.

End Quiet.

Lemma missing_image_exit_witness :
  exists w,
    main (D := float) no_koi_env 0 [] start = (Exit 1, w) /\
    cerr w = ("Could not load image koi.png: " ++ "file not found" ++ nl)%string.
Proof.
  assert (Hk : Forall (fun a : ascii * string => known_option (fst a) = true) [])
    by constructor.
  assert (Hx : strchr (geom_after [] DEFAULT_GEOM) "x" <> None) by discriminate.
  assert (Hok : forall h, cairo_status (no_koi_env (D := float)) h = None)
    by reflexivity.
  assert (Hload : png_load (no_koi_env (D := float)) FISH_IMAGE
                  = inl "file not found"%string) by reflexivity.
  exact (@missing_image_exit float b64_double no_koi_env 0%nat []
           "file not found"%string Hk Hx Hok Hload).
Defined.

(** The default run: with the image in place and no option, [main]
    returns 0, writes nothing to [cerr], creates [target.pdf] first
    and releases the surface last. *)
Example default_run :
  let r := main (D := float) (plain_env false) 100 [] start in
  fst r = Done 0 /\ cerr (snd r) = EmptyString /\
  hd_error (canvas (snd r))
    = Some (pdf_surface_create "target.pdf" 612%float 792%float) /\
  last (canvas (snd r)) create = surface_destroy "surface".
Proof. vm_compute. repeat split. Qed.

(** ** The same numbers in binary64 *)

(** The default page: the expression is 286.2 (to the last bit,
    286.19999999999999) and the radius kept is 286. *)
Example default_radius_b64 :
  target_radius (D := float) (inch_pt (dec 85 1)) (inch_pt (of_int 11))
    (inch_pt DEFAULT_MARGIN) (inch_pt DEFAULT_LINEW) = 286.
Proof. vm_compute. reflexivity. Qed.

(** R = 100, N = 8: the spacing lies between 11.7647 and 11.7648. *)
Example ring_spacing_100_8_b64 :
  let rs := ring_spacing (D := float) 100%float 8 in
  dltb (dec 117647 4) rs = true /\ dltb rs (dec 117648 4) = true.
Proof. vm_compute. split; reflexivity. Qed.

(** On the default target the outermost ring has radius 286 exactly,
    and the nine radii increase. *)
Example default_radii_b64 :
  ring_radius (D := float) 286%float 8 8 = 286%float /\
  forallb (fun k => dltb (ring_radius (D := float) 286%float 8 k)
                      (ring_radius (D := float) 286%float 8 (k + 1)))
    (int_range 0 7) = true.
Proof. vm_compute. split; reflexivity. Qed.

(** Every integer radius from 1 to 1500 points (a page of some 40
    inches) with 0 to 30 rings: in binary64 the outermost ring is at
    the target radius up to rounding, and the radii increase. *)
Example layout_b64_checked :
  forallb (fun R =>
             forallb (fun N => b64_outer_ring_close R N && b64_radii_increase R N)
               (int_range 0 30))
    (int_range 1 1500) = true.
Proof. vm_compute. reflexivity. Qed.

(** What rounding can do outside that range: for the smallest positive
    double the spacing underflows to 0 and the radii coincide.  [main]
    never passes such a radius: its [radius] is an [int]. *)
Example radii_coincide_on_underflow :
  let tiny := 0x0.0000000000001p-1022%float in
  ring_spacing (D := float) tiny 2 = 0%float /\
  ring_radius (D := float) tiny 2 0 = ring_radius (D := float) tiny 2 1.
Proof. vm_compute. split; reflexivity. Qed.

(** ** Radius and ring radii as the machine computes them *)











(** * The helpers and the whole run *)

(** ** Units and layout in exact arithmetic *)

Section ExactGeometry.
Local Open Scope Q_scope.

(** [inch_pt] and [pt_inch] undo each other. *)
Theorem units_round_trip (x : Q) :
  pt_inch (inch_pt x) == x /\ inch_pt (pt_inch x) == x.
Proof.
  unfold pt_inch, inch_pt. cbn [dmul ddiv of_int Q_double].
  split; field.
Qed.

(** The rings are evenly spaced: the bullseye has radius half a
    spacing, consecutive rings are one spacing apart, and the number
    of ring [k], which [main] puts at distance [k * rs] from the
    centre, sits midway between the rings [k - 1] and [k]. *)
Theorem ring_bands (R : Q) (N k : Z) :
  ring_radius R N 0%Z == ring_spacing R N / 2 /\
  ring_radius R N (k + 1)%Z - ring_radius R N k == ring_spacing R N /\
  inject_Z k * ring_spacing R N
  == (ring_radius R N (k - 1)%Z + ring_radius R N k) / 2.
Proof.
  rewrite !ring_radius_exact. unfold Z.sub. rewrite !inject_Z_plus.
  change (inject_Z 0) with 0. change (inject_Z 1) with 1.
  change (inject_Z (Z.opp 1)) with (- (1)).
  split; [|split]; field.
Qed.

End ExactGeometry.

(** ** When [gcd] returns *)

(** Three kinds of arguments never reach the case [a == 0]: a
    negative first argument, a negative second one, equal ones. *)
Lemma gcd_diverges (fuel : nat) :
  forall a b, a <> 0 -> a < 0 \/ b < 0 \/ a = b -> gcd fuel a b = None.
Proof.
  induction fuel as [|fuel IH]; intros a b Ha Hs; [reflexivity|].
  rewrite gcd_equation.
  destruct (Z.eqb_spec a 0) as [E|_]; [contradiction|].
  destruct (Z.ltb_spec a b) as [Hlt|Hge].
  - apply IH; [assumption|]. left. lia.
  - apply IH; lia.
Qed.

(** [gcd(a, b)] returns exactly when [a] is 0, or [a] is positive,
    [b] is not negative and the two differ. *)
Theorem gcd_returns_iff (a b : int) :
  (exists fuel g, gcd fuel a b = Some g) <->
  a = 0 \/ (0 < a /\ 0 <= b /\ a <> b).
Proof.
  split.
  - intros (fuel & g & E).
    destruct (Z.eq_dec a 0) as [Ha|Ha]; [left; assumption|right].
    destruct (Z_lt_dec 0 a) as [Hpos|Hneg].
    + destruct (Z_lt_dec b 0) as [Hb|Hb].
      * rewrite gcd_diverges in E by lia. discriminate.
      * destruct (Z.eq_dec a b) as [Hab|Hab]; [|lia].
        rewrite gcd_diverges in E by lia. discriminate.
    + rewrite gcd_diverges in E by lia. discriminate.
  - intros [->|(Ha & Hb & Hne)].
    + exists 1%nat, b. reflexivity.
    + exists (2 * Z.to_nat (Z.min a b) + 2)%nat, (Z.gcd a b).
      apply gcd_returns; lia.
Qed.

(** The caption of the ring spacing is made exactly when its
    numerator, p/72*32 + 0.5 cut to an integer, is neither negative
    nor 32. *)
Theorem caption_made_iff (p : Q) :
  (exists fuel s, spacing_caption fuel p = Some s) <->
  0 <= Qtrunc (p / 72 * 32 + 0.5)%Q /\ Qtrunc (p / 72 * 32 + 0.5)%Q <> 32.
Proof.
  unfold spacing_caption.
  replace (to_int (pt_inch p * of_int 32 + dec 5 1)%D)
    with (Qtrunc (p / 72 * 32 + 0.5)%Q).
  2: { apply Qtrunc_comp. unfold pt_inch. cbn [dadd dmul ddiv of_int Q_double].
       apply Qplus_comp; reflexivity. }
  set (num := Qtrunc (p / 72 * 32 + 0.5)%Q). split.
  - intros (fuel & s & E).
    destruct (Z_lt_dec num 0) as [Hneg|Hpos].
    { rewrite gcd_diverges in E by lia. discriminate. }
    destruct (Z.eq_dec num 32) as [H32|H32]; [|lia].
    rewrite gcd_diverges in E by lia. discriminate.
  - intros [Hpos H32]. exists 66%nat.
    rewrite (@gcd_returns num 32 66) by (try lia; destruct (Z.eq_dec num 0); lia).
    eexists. reflexivity.
Qed.

(** A margin of 5 inches on the default page: the radius is negative
    and the run does not get past the caption. *)
Example margin_too_large_b64 :
  target_radius (D := float) (inch_pt (dec 85 1)) (inch_pt (of_int 11))
    (inch_pt (of_int 5)) (inch_pt DEFAULT_LINEW) = (-55) /\
  fst (main (D := float) (plain_env false) 60 [("m"%char, "5"%string)] start)
  = NoFuel.
Proof. vm_compute. split; reflexivity. Qed.

(** ** What the helpers put on the page *)

Section Frames.
Context {D : Type} `{Double D}.
Local Open Scope prog_scope.

Lemma has_flag_lor_other (align other flag : Z) :
  Z.land other flag = 0 -> has_flag (Z.lor align other) flag = has_flag align flag.
Proof.
  intros H0. unfold has_flag. rewrite Z.land_lor_distr_l, H0, Z.lor_0_r.
  reflexivity.
Qed.

(** [aligned_text] tests four of the six alignment flags:
    [ALIGN_H_LEFT] and [ALIGN_V_BOTTOM] change nothing. *)
Theorem aligned_text_ignores_left_bottom (env : Env D) (x y : D) (align : Z)
    (t : string) :
  aligned_text env x y (Z.lor align (Z.lor ALIGN_H_LEFT ALIGN_V_BOTTOM)) t
  = aligned_text env x y align t.
Proof.
  unfold aligned_text. rewrite !has_flag_lor_other by reflexivity. reflexivity.
Qed.

Lemma put_runs (f : fish D) (x y : D) (w : world D) :
  deqb (fish_width f) d0 = false -> runs (put f x y) w (put_ops f x y) tt.
Proof.
  intros Hw. unfold put, put_ops. rewrite Hw.
  eapply runs_bind with (ops1 := [_]) (ops2 := [_; _; _; _; _]); [apply runs_emit|].
  eapply runs_bind with (ops1 := [_]) (ops2 := [_; _; _; _]); [apply runs_emit|].
  eapply runs_bind with (ops1 := [_]) (ops2 := [_; _; _]); [apply runs_emit|].
  eapply runs_bind with (ops1 := [_]) (ops2 := [_; _]); [apply runs_emit|].
  eapply runs_bind with (ops1 := [_]) (ops2 := [_]); apply runs_emit.
Qed.

(** The constructor leaves the width at 0.0: a [put] that no
    [width_set] comes before stops at the assertion, with the image
    loaded and nothing painted. *)
Theorem put_before_width_set_aborts (env : Env D) (x y : D) (w : world D)
    (ext : D * D * D * D) :
  deqb (d0 (D := D)) d0 = true ->
  png_load env FISH_IMAGE = inr ext ->
  (f <- fish_new env ;; put f x y) w
  = (Abort, extend w [image_surface_create_from_png FISH_IMAGE]).
Proof.
  intros H0 Hload. unfold bind at 1. unfold fish_new. unfold bind at 1.
  rewrite Hload. destruct ext as [[[ulx uly] lrx] lry].
  simpl. unfold put. simpl. rewrite H0. reflexivity.
Qed.

Lemma target_eye_runs (x y r : D) (w : world D) :
  runs (target_eye x y r) w (eye_ops x y r) tt.
Proof.
  unfold target_eye, eye_ops.
  eapply runs_bind with (ops1 := [_]) (ops2 := [_; _; _; _]); [apply runs_emit|].
  eapply runs_bind with (ops1 := [_]) (ops2 := [_; _; _]); [apply runs_emit|].
  eapply runs_bind with (ops1 := [_]) (ops2 := [_; _]); [apply runs_emit|].
  eapply runs_bind with (ops1 := [_]) (ops2 := [_]); apply runs_emit.
Qed.

Lemma draw_eyes_runs (cx cy rs : D) (radius rings : int) (w : world D) :
  let td := (ring_radius (of_int radius) rings (rings - 1)%Z * dsqrt d2 / d2)%D in
  let r := (rs / d2)%D in
  runs (draw_eyes cx cy rs radius rings) w
    (eye_ops (cx - td)%D (cy - td)%D r ++ eye_ops (cx + td)%D (cy - td)%D r
       ++ eye_ops (cx + td)%D (cy + td)%D r ++ eye_ops (cx - td)%D (cy + td)%D r) tt.
Proof.
  intros td r. unfold draw_eyes. cbv zeta. fold td. fold r.
  eapply runs_bind; [apply target_eye_runs|].
  eapply runs_bind; [apply target_eye_runs|].
  eapply runs_bind; [apply target_eye_runs|].
  apply target_eye_runs.
Qed.

(** The four extra eyes: each is one circle, filled white and then
    outlined black, of radius half a ring spacing; their centres are
    [td] left or right of and above or below the centre of the target,
    [td] being the radius of the ring [rings - 1] times sqrt(2)/2.
    Afterwards the source is black and no path is left. *)
Theorem draw_eyes_marks (cx cy rs : D) (radius rings : int)
    (w : world D) (i : source D) (sv : list (source D)) :
  let td := (ring_radius (of_int radius) rings (rings - 1)%Z * dsqrt d2 / d2)%D in
  let r := (rs / d2)%D in
  draw {| ink := i; saved := sv; path := [] |}
    (drawn (draw_eyes cx cy rs radius rings) w)
  = ({| ink := colour black; saved := sv; path := [] |},
     eye (cx - td)%D (cy - td)%D r ++ eye (cx + td)%D (cy - td)%D r
       ++ eye (cx + td)%D (cy + td)%D r ++ eye (cx - td)%D (cy + td)%D r).
Proof.
  intros td r. rewrite (runs_drawn (draw_eyes_runs cx cy rs radius rings w)).
  reflexivity.
Qed.

Lemma draw_koi_runs (env : Env D) (width height margin : D)
    (ulx uly lrx lry : D) (w : world D) :
  png_load env FISH_IMAGE = inr (ulx, uly, lrx, lry) ->
  deqb (inch_pt (d2 (D := D))) d0 = false ->
  let iw := inch_pt (d2 (D := D)) in
  let ih := (iw * (lry - uly) / (lrx - ulx))%D in
  let f := {| im := FISH_IMAGE; im_w := (lrx - ulx)%D; im_h := (lry - uly)%D;
              fish_width := iw |} in
  runs (draw_koi env width height margin) w
    ([image_surface_create_from_png FISH_IMAGE]
       ++ (put_ops f margin margin
             ++ put_ops f (width - margin - iw)%D margin
             ++ put_ops f margin (height - margin - ih)%D
             ++ put_ops f (width - margin - iw)%D (height - margin - ih)%D)
       ++ [surface_destroy FISH_IMAGE]) (iw, ih).
Proof.
  intros Hload Hw iw ih f.
  unfold draw_koi.
  eapply runs_bind with (ops1 := [_]).
  { unfold fish_new. rewrite Hload.
    eapply runs_bind with (ops1 := [_]) (ops2 := []); [apply runs_emit|].
    apply runs_ret. }
  cbv zeta. unfold width_set, height_get. simpl im. simpl im_w. simpl im_h.
  simpl fish_width. fold iw. fold ih. fold f.
  rewrite <- !app_assoc.
  eapply runs_bind; [apply (put_runs f); exact Hw|].
  eapply runs_bind; [apply (put_runs f); exact Hw|].
  eapply runs_bind; [apply (put_runs f); exact Hw|].
  eapply runs_bind; [apply (put_runs f); exact Hw|].
  eapply runs_bind with (ops1 := [_]) (ops2 := []); [apply runs_emit|].
  apply runs_ret.
Qed.

(** With the image in place, the koi part loads it once, paints it
    four times, 2 inches wide and with the height that keeps its
    proportions, at the four corners inside the margin, releases it,
    and leaves source, saved sources and path as they were; it returns
    the width and the height of the image on the page. *)
Theorem draw_koi_loads_paints_releases (env : Env D) (width height margin : D)
    (ulx uly lrx lry : D) (w : world D) (p : pen D) :
  png_load env FISH_IMAGE = inr (ulx, uly, lrx, lry) ->
  deqb (inch_pt (d2 (D := D))) d0 = false ->
  let iw := inch_pt (d2 (D := D)) in
  let ih := (iw * (lry - uly) / (lrx - ulx))%D in
  exists ops,
    runs (draw_koi env width height margin) w
      ([image_surface_create_from_png FISH_IMAGE] ++ ops
         ++ [surface_destroy FISH_IMAGE]) (iw, ih) /\
    filter (fun op => match op with translate _ _ => true | _ => false end) ops
      = [translate margin margin;
         translate (width - margin - iw)%D margin;
         translate margin (height - margin - ih)%D;
         translate (width - margin - iw)%D (height - margin - ih)%D] /\
    draw p ([image_surface_create_from_png FISH_IMAGE] ++ ops
              ++ [surface_destroy FISH_IMAGE])
    = ({| ink := ink p; saved := saved p; path := path p |},
       repeat (painted (surface FISH_IMAGE)) 4).
Proof.
  intros Hload Hw iw ih.
  eexists. split; [apply draw_koi_runs; eassumption|].
  split; reflexivity.
Qed.


Lemma prints_ext (c c' : prog D unit) (ts : list string) :
  (forall w, c w = c' w) -> prints c' ts -> prints c ts.
Proof.
  intros Hc Hp w. destruct (Hp w) as (ops & mv & Hr & Hd).
  exists ops, mv. split; [|assumption]. unfold runs. rewrite Hc. exact Hr.
Qed.

Lemma prints_bind (c : prog D unit) (k : unit -> prog D unit) (ts1 ts2 : list string) :
  prints c ts1 -> prints (k tt) ts2 -> prints (bind c k) (ts1 ++ ts2).
Proof.
  intros Hc Hk w.
  destruct (Hc w) as (ops1 & mv1 & Hr1 & Hd1).
  destruct (Hk (extend w ops1)) as (ops2 & mv2 & Hr2 & Hd2).
  exists (ops1 ++ ops2)%list, (mv1 ++ mv2)%list. split.
  - eapply runs_bind; eassumption.
  - intros p. rewrite draw_app, Hd1. simpl. rewrite Hd2. simpl.
    rewrite map_app, app_assoc. reflexivity.
Qed.

Lemma prints_font (op : cairo_op D) :
  (forall p, pen_step p op = (p, [])) -> prints (emit op) [].
Proof.
  intros Hop w. exists [op], []. split; [apply runs_emit|].
  intros p. simpl. rewrite Hop. destruct p; simpl. rewrite app_nil_r. reflexivity.
Qed.

Lemma prints_aligned_text (env : Env D) (x y : D) (align : Z) (t : string) :
  prints (aligned_text env x y align t) [t].
Proof.
  intros w. destruct (aligned_text_runs env x y align t w) as (x' & y' & Hr).
  exists (text_ops x' y' t), [move_to x' y']. split; [exact Hr|].
  intros p. reflexivity.
Qed.

Lemma prints_draw_labels (env : Env D) (fuel : nat)
    (width height margin rs iw ih : D) (s : string) :
  spacing_caption fuel rs = Some s ->
  prints (draw_labels env fuel width height margin rs iw ih)
    ["www.fishlet.com"; "www.fishlet.com"; s; copyright]%string.
Proof.
  intros Hs. unfold draw_labels. rewrite Hs. cbv zeta.
  eapply prints_ext.
  { intros w. unfold bind at 1. cbv beta iota. reflexivity. }
  apply (@prints_bind _ _ [] [_; _; _; _]); [apply prints_font; reflexivity|].
  apply (@prints_bind _ _ [] [_; _; _; _]); [apply prints_font; reflexivity|].
  apply (@prints_bind _ _ [_] [_; _; _]); [apply prints_aligned_text|].
  apply (@prints_bind _ _ [_] [_; _]); [apply prints_aligned_text|].
  apply (@prints_bind _ _ [_] [_]); apply prints_aligned_text.
Qed.

End Frames.

Lemma put_before_width_set_aborts_witness :
  (deqb (d0 (D := float)) d0 = true /\
   png_load (plain_env (D := float) false) FISH_IMAGE
   = inr (d0, d0, of_int 400, of_int 300)) /\
  (f <- fish_new (plain_env (D := float) false) ;; put f 18%float 18%float)%prog
    start
  = (Abort, extend start [image_surface_create_from_png FISH_IMAGE]).
Proof.
  assert (H0 : deqb (d0 (D := float)) d0 = true) by reflexivity.
  assert (Hload : png_load (plain_env (D := float) false) FISH_IMAGE
                  = inr (d0, d0, of_int 400, of_int 300)) by reflexivity.
  split; [split; assumption|].
  exact (@put_before_width_set_aborts float b64_double (plain_env false)
           18%float 18%float start _ H0 Hload).
Defined.

Lemma draw_koi_loads_paints_releases_witness :
  let env := plain_env (D := float) false in
  let p : pen float := {| ink := colour black; saved := []; path := [] |} in
  let iw := inch_pt (d2 (D := float)) in
  let ih := (iw * (of_int 300 - d0) / (of_int 400 - d0))%D in
  (png_load env FISH_IMAGE = inr (d0, d0, of_int 400, of_int 300) /\
   deqb (inch_pt (d2 (D := float))) d0 = false) /\
  exists ops,
    runs (draw_koi env 612%float 792%float 18%float) start
      ([image_surface_create_from_png FISH_IMAGE] ++ ops
         ++ [surface_destroy FISH_IMAGE]) (iw, ih) /\
    filter (fun op => match op with translate _ _ => true | _ => false end) ops
      = [translate 18%float 18%float;
         translate (612%float - 18%float - iw)%D 18%float;
         translate 18%float (792%float - 18%float - ih)%D;
         translate (612%float - 18%float - iw)%D (792%float - 18%float - ih)%D] /\
    draw p ([image_surface_create_from_png FISH_IMAGE] ++ ops
              ++ [surface_destroy FISH_IMAGE])
    = ({| ink := ink p; saved := saved p; path := path p |},
       repeat (painted (surface FISH_IMAGE)) 4).
Proof.
  intros env p iw ih.
  assert (Hload : png_load env FISH_IMAGE = inr (d0, d0, of_int 400, of_int 300))
    by reflexivity.
  assert (Hw : deqb (inch_pt (d2 (D := float))) d0 = false) by reflexivity.
  split; [split; assumption|].
  exact (@draw_koi_loads_paints_releases float b64_double env
           612%float 792%float 18%float d0 d0 (of_int 400) (of_int 300)
           start p Hload Hw).
Defined.

(** ** Placement in exact arithmetic *)

Section ExactPlacement.
Local Open Scope Q_scope.


(** The ring numbers are centred: with [ALIGN_H_CENTER | ALIGN_V_CENTER]
    the text starts half its width to the left of [x] and half its
    height below [y]. *)
Theorem centred_text_is_centred (env : Env Q) (x y : Q) (t : string) (w : world Q) :
  let te := text_extents env (canvas w) t in
  exists x' y',
    drawn (aligned_text env x y (Z.lor ALIGN_H_CENTER ALIGN_V_CENTER) t) w
      = text_ops x' y' t /\
    x' + fst te / 2 == x /\ y' - snd te / 2 == y.
Proof.
  intros te.
  exists (x + - fst te / 2), (y + snd te / 2). split.
  - apply runs_drawn with (a := tt). unfold aligned_text, text_ops.
    eapply runs_bind with (ops1 := []); [apply runs_history|].
    fold te. cbv zeta.
    change (has_flag (Z.lor ALIGN_H_CENTER ALIGN_V_CENTER) ALIGN_H_CENTER) with true.
    change (has_flag (Z.lor ALIGN_H_CENTER ALIGN_V_CENTER) ALIGN_V_CENTER) with true.
    cbv iota.
    eapply runs_bind with (ops1 := [_]) (ops2 := [_; _; _]); [apply runs_emit|].
    eapply runs_bind with (ops1 := [_]) (ops2 := [_; _]); [apply runs_emit|].
    eapply runs_bind with (ops1 := [_]) (ops2 := [_]); apply runs_emit.
  - split; field.
Qed.

End ExactPlacement.

(** ** How the parts of the page fit together *)

Section Composition.
Context {D : Type} `{Double D}.
Local Open Scope prog_scope.

(** Where the numerator is neither negative nor 32 the caption is
    made, in any arithmetic: [gcd] works on the [int]s. *)
Lemma spacing_caption_made (rs : D) (fuel : nat) :
  let num := to_int (pt_inch rs * of_int 32 + dec 5 1)%D in
  0 <= num -> num <> 32 -> (66 <= fuel)%nat ->
  spacing_caption fuel rs =
    Some ("Ring spacing " ++ show_int (num / Z.gcd num 32) ++ "/"
            ++ show_int (32 / Z.gcd num 32) ++ dquote)%string.
Proof.
  intros num Hnum Hne Hfuel. unfold spacing_caption. fold num.
  rewrite (@gcd_returns num 32 fuel) by (try lia; destruct (Z.eq_dec num 0); lia).
  assert (Hg : 0 < Z.gcd num 32).
  { pose proof (Z.gcd_nonneg num 32) as Hn.
    destruct (Z.eq_dec (Z.gcd num 32) 0) as [E|E]; [|lia].
    apply Z.gcd_eq_0_r in E. discriminate. }
  rewrite !Z.quot_div_nonneg by lia. reflexivity.
Qed.

(** The program sets no colour for the captions: they come out in
    the source the last eye leaves, black.  With the image in place
    and a caption numerator that is neither negative nor 32, from the
    eyes on the page gets the four eyes, the image four times, and the
    four captions in black, the third being the ring spacing as a
    fraction of 32 in lowest terms. *)
Theorem captions_follow_eyes (env : Env D) (fuel : nat)
    (cx cy rs width height margin : D) (radius rings : int)
    (ulx uly lrx lry : D) (w : world D)
    (i : source D) (sv : list (source D)) :
  png_load env FISH_IMAGE = inr (ulx, uly, lrx, lry) ->
  deqb (inch_pt (d2 (D := D))) d0 = false ->
  let num := to_int (pt_inch rs * of_int 32 + dec 5 1)%D in
  0 <= num -> num <> 32 -> (66 <= fuel)%nat ->
  let td := (ring_radius (of_int radius) rings (rings - 1)%Z * dsqrt d2 / d2)%D in
  let r := (rs / d2)%D in
  marks {| ink := i; saved := sv; path := [] |}
    (drawn (draw_eyes cx cy rs radius rings ;;
            im <- draw_koi env width height margin ;;
            draw_labels env fuel width height margin rs (fst im) (snd im)) w)
  = (eye (cx - td)%D (cy - td)%D r ++ eye (cx + td)%D (cy - td)%D r
       ++ eye (cx + td)%D (cy + td)%D r ++ eye (cx - td)%D (cy + td)%D r
       ++ repeat (painted (surface FISH_IMAGE)) 4
       ++ map (text (colour black))
            ["www.fishlet.com"; "www.fishlet.com";
             "Ring spacing " ++ show_int (num / Z.gcd num 32) ++ "/"
               ++ show_int (32 / Z.gcd num 32) ++ dquote;
             copyright]%string)%list.
Proof.
  intros Hload Hw num Hnum Hne Hfuel td r.
  pose proof (@spacing_caption_made rs fuel Hnum Hne Hfuel) as Hs.
  fold num in Hs.
  set (s := ("Ring spacing " ++ show_int (num / Z.gcd num 32) ++ "/"
               ++ show_int (32 / Z.gcd num 32) ++ dquote)%string) in *.
  pose proof (draw_eyes_runs cx cy rs radius rings w) as He.
  cbv zeta in He. fold td in He. fold r in He.
  pose proof (@draw_koi_runs _ _ env width height margin ulx uly lrx lry
                (extend w (eye_ops (cx - td)%D (cy - td)%D r
                             ++ eye_ops (cx + td)%D (cy - td)%D r
                             ++ eye_ops (cx + td)%D (cy + td)%D r
                             ++ eye_ops (cx - td)%D (cy + td)%D r)) Hload Hw) as Hk.
  cbv zeta in Hk.
  match type of Hk with
  | runs _ ?w1 ?ops1 (?iw, ?ih) =>
      destruct (@prints_draw_labels _ _ env fuel width height margin rs iw ih s Hs
                  (extend w1 ops1)) as (ops & mv & Hl & Hd)
  end.
  match type of Hk with
  | runs _ _ ?opsk _ =>
      match type of He with
      | runs _ _ ?opse _ =>
          assert (Hr : runs (draw_eyes cx cy rs radius rings ;;
                             im <- draw_koi env width height margin ;;
                             draw_labels env fuel width height margin rs
                               (fst im) (snd im)) w (opse ++ opsk ++ ops) tt)
      end
  end.
  { eapply runs_bind; [exact He|]. eapply runs_bind; [exact Hk|]. exact Hl. }
  rewrite (runs_drawn Hr). unfold marks.
  rewrite draw_app. rewrite (draw_app _ ops). rewrite Hd. reflexivity.
Qed.

Lemma centred_text_runs (env : Env D) (x y : D) (t : string) (w : world D) :
  let te := text_extents env (canvas w) t in
  runs (aligned_text env x y (Z.lor ALIGN_H_CENTER ALIGN_V_CENTER) t) w
    (text_ops (x + - fst te / d2)%D (y + snd te / d2)%D t) tt.
Proof.
  intros te. unfold aligned_text, text_ops.
  eapply runs_bind with (ops1 := []); [apply runs_history|].
  fold te. cbv zeta.
  change (has_flag (Z.lor ALIGN_H_CENTER ALIGN_V_CENTER) ALIGN_H_CENTER) with true.
  change (has_flag (Z.lor ALIGN_H_CENTER ALIGN_V_CENTER) ALIGN_V_CENTER) with true.
  cbv iota.
  eapply runs_bind with (ops1 := [_]) (ops2 := [_; _; _]); [apply runs_emit|].
  eapply runs_bind with (ops1 := [_]) (ops2 := [_; _]); [apply runs_emit|].
  eapply runs_bind with (ops1 := [_]) (ops2 := [_]); apply runs_emit.
Qed.

(** One ring number, where the extents of its text do not depend on
    what has been drawn: the source, then the number four times, each
    time by a centred [aligned_text] at distance [ring * rs] from the
    centre, right, left, below and above. *)
Lemma draw_ring_number_runs (env : Env D) (cx cy rs : D)
    (rings irings orings k : int) (tw th : D) (w : world D) :
  (forall h, text_extents env h (show_int k) = (tw, th)) ->
  let ink := if label_test rings irings orings k
             then set_source_rgba d1 d1 d1 d1 else set_source_rgba d0 d0 d0 d1 in
  let dx := (- tw / d2)%D in
  let dy := (th / d2)%D in
  let a := (of_int k * rs)%D in
  runs (draw_ring_number env cx cy rs rings irings orings k) w
    ([ink] ++ text_ops (cx + a + dx)%D (cy + dy)%D (show_int k)
       ++ text_ops (cx - a + dx)%D (cy + dy)%D (show_int k)
       ++ text_ops (cx + dx)%D (cy + a + dy)%D (show_int k)
       ++ text_ops (cx + dx)%D (cy - a + dy)%D (show_int k)) tt.
Proof.
  intros Hte ink dx dy a.
  unfold draw_ring_number. fold (label_test rings irings orings k). cbv zeta.
  fold a.
  eapply runs_bind with (ops1 := [ink]).
  { subst ink. destruct (label_test rings irings orings k); apply runs_emit. }
  assert (Hc : forall x y w',
             runs (aligned_text env x y (Z.lor ALIGN_H_CENTER ALIGN_V_CENTER)
                     (show_int k)) w'
               (text_ops (x + dx)%D (y + dy)%D (show_int k)) tt).
  { intros x y w'. pose proof (centred_text_runs env x y (show_int k) w') as Hr.
    cbv zeta in Hr. rewrite Hte in Hr. exact Hr. }
  eapply runs_bind; [apply Hc|].
  eapply runs_bind; [apply Hc|].
  eapply runs_bind; [apply Hc|].
  apply Hc.
Qed.


End Composition.

Lemma captions_follow_eyes_witness :
  let env := plain_env (D := float) false in
  let rs := ring_spacing (D := float) 286%float 8 in
  let num := to_int (pt_inch rs * of_int 32 + dec 5 1)%D in
  let td := (ring_radius (of_int 286) 8 (8 - 1)%Z * dsqrt d2 / d2)%D in
  let r := (rs / d2)%D in
  (png_load env FISH_IMAGE = inr (d0, d0, of_int 400, of_int 300) /\
   deqb (inch_pt (d2 (D := float))) d0 = false /\
   0 <= num /\ num <> 32 /\ (66 <= 66)%nat) /\
  marks {| ink := colour white; saved := []; path := [] |}
    (drawn (draw_eyes 306%float 396%float rs 286 8 ;;
            im <- draw_koi env 612%float 792%float 18%float ;;
            draw_labels env 66 612%float 792%float 18%float rs
              (fst im) (snd im))%prog start)
  = (eye (306%float - td)%D (396%float - td)%D r
       ++ eye (306%float + td)%D (396%float - td)%D r
       ++ eye (306%float + td)%D (396%float + td)%D r
       ++ eye (306%float - td)%D (396%float + td)%D r
       ++ repeat (painted (surface FISH_IMAGE)) 4
       ++ map (text (colour black))
            ["www.fishlet.com"; "www.fishlet.com";
             "Ring spacing " ++ show_int (num / Z.gcd num 32) ++ "/"
               ++ show_int (32 / Z.gcd num 32) ++ dquote;
             copyright]%string)%list.
Proof.
  cbv zeta.
  assert (Hload : png_load (plain_env (D := float) false) FISH_IMAGE
                  = inr (d0, d0, of_int 400, of_int 300)) by reflexivity.
  assert (Hw : deqb (inch_pt (d2 (D := float))) d0 = false) by reflexivity.
  assert (Hnum : 0 <= to_int (pt_inch (ring_spacing (D := float) 286%float 8)
                                * of_int 32 + dec 5 1)%D)
    by (vm_compute; discriminate).
  assert (Hne : to_int (pt_inch (ring_spacing (D := float) 286%float 8)
                          * of_int 32 + dec 5 1)%D <> 32)
    by (vm_compute; discriminate).
  split; [repeat split; assumption || apply le_n|].
  exact (@captions_follow_eyes float b64_double (plain_env false) 66%nat
           306%float 396%float (ring_spacing (D := float) 286%float 8)
           612%float 792%float 18%float 286 8
           d0 d0 (of_int 400) (of_int 300) start (colour white) []
           Hload Hw Hnum Hne (le_n 66)).
Defined.


Section ExactComposition.
Local Open Scope Q_scope.

(** The ring numbers sit between the rings.  In exact arithmetic, and
    where the extents of the text do not depend on what has been
    drawn, [draw_ring_number] sets the source and shows the number of
    ring [k] four times, centred on the points at distance [m] right
    of, left of, below and above the centre of the target, [m] being
    midway between the radii of the rings [k - 1] and [k]. *)
Theorem ring_numbers_between_rings (env : Env Q) (cx cy R : Q)
    (N irings orings k : int) (tw th : Q) (w : world Q) :
  (forall h, text_extents env h (show_int k) = (tw, th)) ->
  let m := (ring_radius R N (k - 1)%Z + ring_radius R N k) / 2 in
  exists x1 y1 x2 y2 x3 y3 x4 y4,
    drawn (draw_ring_number env cx cy (ring_spacing R N) N irings orings k) w
    = ([if label_test N irings orings k
        then set_source_rgba d1 d1 d1 d1 else set_source_rgba d0 d0 d0 d1]
         ++ text_ops x1 y1 (show_int k) ++ text_ops x2 y2 (show_int k)
         ++ text_ops x3 y3 (show_int k) ++ text_ops x4 y4 (show_int k))%list /\
    (x1 + tw / 2 == cx + m /\ y1 - th / 2 == cy) /\
    (x2 + tw / 2 == cx - m /\ y2 - th / 2 == cy) /\
    (x3 + tw / 2 == cx /\ y3 - th / 2 == cy + m) /\
    (x4 + tw / 2 == cx /\ y4 - th / 2 == cy - m).
Proof.
  intros Hte m.
  pose proof (@draw_ring_number_runs Q _ env cx cy (ring_spacing R N) N irings
                orings k tw th w Hte) as Hr.
  cbv zeta in Hr. do 8 eexists. split; [exact (runs_drawn Hr)|].
  assert (Hm : inject_Z k * ring_spacing R N == m).
  { subst m. rewrite !ring_radius_exact. unfold Z.sub. rewrite inject_Z_plus.
    change (inject_Z (Z.opp 1)) with (- (1)). field. }
  cbn [dadd dsub dmul ddiv dneg of_int Q_double].
  change (d2 (D := Q)) with 2. rewrite Hm.
  repeat split; field.
Qed.

(** [put] paints the image at the size [width_set] and [height_get]
    speak of.  In exact arithmetic, for an image of non-zero width and
    a non-zero width set, [put] makes the calls save, translate, scale
    by one factor [s] in both directions, set_source_surface, paint,
    restore, and [s] takes the width of the image to the width set and
    its height to the value of [height_get]. *)
Theorem fish_height_matches_scale (f : fish Q) (wd x y : Q) (w : world Q) :
  ~ im_w f == 0 -> ~ wd == 0 ->
  let g := width_set f wd in
  exists s,
    drawn (put g x y) w
    = [save; translate x y; scale s s; set_source_surface (im f) d0 d0;
       paint; restore] /\
    s * im_w f == wd /\ s * im_h f == height_get g.
Proof.
  intros Hw Hwd g.
  assert (Hne : deqb (fish_width g) d0 = false).
  { subst g. unfold width_set. cbn [fish_width deqb Q_double].
    destruct (Qeq_bool wd d0) eqn:E; [|reflexivity].
    apply Qeq_bool_eq in E. contradiction. }
  exists (fish_width g / im_w g). split.
  - exact (runs_drawn (@put_runs Q _ g x y w Hne)).
  - subst g. unfold height_get, width_set. cbn [fish_width im_w im_h].
    cbn [dmul ddiv Q_double]. split; field; assumption.
Qed.

End ExactComposition.

Lemma ring_numbers_between_rings_witness :
  let env := plain_env (D := Q) false in
  let m := ((ring_radius 286 8%Z (3 - 1)%Z + ring_radius 286 8%Z 3%Z) / 2)%Q in
  (forall h, text_extents env h (show_int 3) = (6%Q, 9%Q)) /\
  exists x1 y1 x2 y2 x3 y3 x4 y4,
    drawn (draw_ring_number env 306%Q 396%Q (ring_spacing 286%Q 8) 8 3 2 3) start
    = ([if label_test 8 3 2 3
        then set_source_rgba d1 d1 d1 d1 else set_source_rgba d0 d0 d0 d1]
         ++ text_ops x1 y1 (show_int 3) ++ text_ops x2 y2 (show_int 3)
         ++ text_ops x3 y3 (show_int 3) ++ text_ops x4 y4 (show_int 3))%list /\
    (x1 + 6 / 2 == 306 + m /\ y1 - 9 / 2 == 396)%Q /\
    (x2 + 6 / 2 == 306 - m /\ y2 - 9 / 2 == 396)%Q /\
    (x3 + 6 / 2 == 306 /\ y3 - 9 / 2 == 396 + m)%Q /\
    (x4 + 6 / 2 == 306 /\ y4 - 9 / 2 == 396 - m)%Q.
Proof.
  cbv zeta.
  assert (Hte : forall h, text_extents (plain_env (D := Q) false) h (show_int 3)
                          = (6%Q, 9%Q)) by reflexivity.
  split; [exact Hte|].
  exact (@ring_numbers_between_rings (plain_env false) 306%Q 396%Q 286%Q 8 3 2 3
           6%Q 9%Q start Hte).
Defined.

Lemma fish_height_matches_scale_witness :
  let f := {| im := FISH_IMAGE; im_w := 400%Q; im_h := 300%Q; fish_width := 0%Q |} in
  ((~ im_w f == 0)%Q /\ (~ 144 == 0)%Q) /\
  exists s : Q,
    drawn (put (width_set f 144%Q) 18%Q 18%Q) start
    = [save; translate 18%Q 18%Q; scale s s; set_source_surface (im f) d0 d0;
       paint; restore] /\
    (s * im_w f == 144 /\ s * im_h f == height_get (width_set f 144%Q))%Q.
Proof.
  cbv zeta.
  assert (Hw : (~ 400 == 0)%Q) by (intros E; discriminate E).
  assert (Hwd : (~ 144 == 0)%Q) by (intros E; discriminate E).
  split; [split; assumption|].
  exact (@fish_height_matches_scale
           {| im := FISH_IMAGE; im_w := 400%Q; im_h := 300%Q; fish_width := 0%Q |}
           144%Q 18%Q 18%Q start Hw Hwd).
Defined.

(** ** How a run ends *)

Section Outcomes.
Context {D : Type} `{Double D}.
Variable env : Env D.
Local Open Scope prog_scope.

Lemma bind_done {A B} (c : prog D A) (k : A -> prog D B) w b w' :
  bind c k w = (Done b, w') ->
  exists a w1, c w = (Done a, w1) /\ k a w1 = (Done b, w').
Proof.
  unfold bind. destruct (c w) as [[a|s| |] w1]; intros E; try discriminate.
  exists a, w1. split; [reflexivity|assumption].
Qed.

Lemma bind_exit {A B} (c : prog D A) (k : A -> prog D B) w s w' :
  bind c k w = (Exit s, w') ->
  c w = (Exit s, w') \/ exists a w1, c w = (Done a, w1) /\ k a w1 = (Exit s, w').
Proof.
  unfold bind. destruct (c w) as [[a|s1| |] w1]; intros E; try discriminate.
  - right. exists a, w1. split; [reflexivity|assumption].
  - left. injection E as <- <-. reflexivity.
Qed.

Lemma exits_with_bind {A B} (c : prog D A) (k : A -> prog D B) s0 :
  exits_with c s0 -> (forall a, exits_with (k a) s0) -> exits_with (bind c k) s0.
Proof.
  intros Hc Hk w s w' E. apply bind_exit in E.
  destruct E as [E|(a & w1 & _ & E)]; [eapply Hc|eapply Hk]; eassumption.
Qed.

Lemma exits_with_ret {A} (a : A) s0 : exits_with (ret (D := D) a) s0.
Proof. intros w s w' E. discriminate. Qed.

Lemma exits_with_emit (op : cairo_op D) s0 : exits_with (emit op) s0.
Proof. intros w s w' E. discriminate. Qed.

Lemma exits_with_eprint (t : string) s0 : exits_with (eprint (D := D) t) s0.
Proof. intros w s w' E. discriminate. Qed.

Lemma exits_with_history s0 : exits_with (history (D := D)) s0.
Proof. intros w s w' E. discriminate. Qed.

Lemma exits_with_exit {A} s0 : exits_with (exit (D := D) (A := A) s0) s0.
Proof. intros w s w' E. unfold exit in E. congruence. Qed.

Lemma exits_with_abort {A} s0 : exits_with (fun w : world D => (@Abort A, w)) s0.
Proof. intros w s w' E. discriminate. Qed.

Lemma exits_with_if {A} (b : bool) (c1 c2 : prog D A) s0 :
  exits_with c1 s0 -> exits_with c2 s0 -> exits_with (if b then c1 else c2) s0.
Proof. destruct b; auto. Qed.

Lemma exits_with_for_each {A} (l : list A) (body : A -> prog D unit) s0 :
  (forall a, exits_with (body a) s0) -> exits_with (for_each l body) s0.
Proof.
  intros Hb. induction l as [|a l IH]; simpl.
  - apply exits_with_ret.
  - apply exits_with_bind; auto.
Qed.

Ltac exits_steps :=
  repeat lazymatch goal with
    | |- exits_with (bind _ _) _ => apply exits_with_bind; [|intros]
    | |- exits_with (if _ then _ else _) _ => apply exits_with_if
    | |- exits_with (for_each _ _) _ => apply exits_with_for_each; intros
    | |- exits_with (emit _) _ => apply exits_with_emit
    | |- exits_with (ret _) _ => apply exits_with_ret
    | |- exits_with (eprint _) _ => apply exits_with_eprint
    | |- exits_with (exit _) _ => apply exits_with_exit
    | |- exits_with history _ => apply exits_with_history
    | |- exits_with (fun w => (Abort, w)) _ => apply exits_with_abort
    | |- exits_with (aligned_text _ _ _ _ _) _ => unfold aligned_text
    | |- exits_with (target_eye _ _ _) _ => unfold target_eye
    | |- exits_with (put _ _ _) _ => unfold put
    | |- exits_with (fish_delete _) _ => unfold fish_delete
    end.

Lemma exits_with_check_status : exits_with (check_status env) 1.
Proof.
  unfold check_status. apply exits_with_bind; [apply exits_with_history|].
  intros h. destruct (cairo_status env h); exits_steps.
Qed.

Lemma exits_with_fish_new : exits_with (fish_new env) 1.
Proof.
  unfold fish_new. apply exits_with_bind; [apply exits_with_emit|]. intros _.
  destruct (png_load env FISH_IMAGE) as [msg|[[[ulx uly] lrx] lry]]; exits_steps.
Qed.

Lemma exits_with_draw_labels (fuel : nat) (width height margin rs iw ih : D) :
  exits_with (draw_labels env fuel width height margin rs iw ih) 1.
Proof.
  unfold draw_labels. apply exits_with_bind.
  - intros w s w' E. destruct (spacing_caption fuel rs); discriminate.
  - intros t. exits_steps.
Qed.

Lemma exits_with_render (fuel : nat) (o : options D) :
  strchr (opt_geom o) "x" <> None -> exits_with (render env fuel o) 1.
Proof.
  intros Hx. unfold render.
  destruct (strchr (opt_geom o) "x") as [s|]; [|contradiction].
  cbv zeta.
  repeat lazymatch goal with
    | |- exits_with (bind _ _) _ => apply exits_with_bind; [|intros]
    | |- exits_with (emit _) _ => apply exits_with_emit
    | |- exits_with (ret _) _ => apply exits_with_ret
    | |- exits_with (check_status _) _ => apply exits_with_check_status
    | |- exits_with (draw_background _ _ _ _) _ => unfold draw_background; exits_steps
    | |- exits_with (draw_disks _ _ _ _ _ _) _ => unfold draw_disks; exits_steps
    | |- exits_with (draw_rings _ _ _ _ _ _) _ =>
        unfold draw_rings, draw_ring; exits_steps
    | |- exits_with (draw_ring_numbers _ _ _ _ _ _ _) _ =>
        unfold draw_ring_numbers, draw_ring_number; exits_steps
    | |- exits_with (draw_eyes _ _ _ _ _) _ => unfold draw_eyes; exits_steps
    | |- exits_with (draw_koi _ _ _ _) _ =>
        unfold draw_koi; apply exits_with_bind;
        [apply exits_with_fish_new|intros; exits_steps]
    | |- exits_with (draw_labels _ _ _ _ _ _ _ _) _ => apply exits_with_draw_labels
    end.
Qed.

(** The two exit statuses tell the two kinds of failure apart: a
    run that exits with 2 had an option outside the known ones or a
    size argument without ['x'], and has made no Cairo call; in the
    second case, where [getopt] had nothing to complain about, the
    usage text is all there is on [cerr].  A run that exits with 1 had
    neither fault. *)
Theorem exit_status_meaning (fuel : nat) (args : list (ascii * string))
    (s : int) (w : world D) :
  main env fuel args start = (Exit s, w) ->
  (s = 2 /\ canvas w = [] /\
   (Exists (fun a => known_option (fst a) = false) args \/
    (Forall (fun a => known_option (fst a) = true) args /\
     strchr (geom_after args DEFAULT_GEOM) "x" = None /\
     cerr w = usage_text))) \/
  (s = 1 /\
   Forall (fun a => known_option (fst a) = true) args /\
   strchr (geom_after args DEFAULT_GEOM) "x" <> None).
Proof.
  intros E.
  destruct (Exists_dec (fun a => known_option (fst a) = false) args) as [Hex|Hall].
  { intros a. destruct (known_option (fst a)); [right; discriminate|left; reflexivity]. }
  - left. unfold main, bind in E.
    rewrite parse_options_unknown in E by assumption.
    injection E as <- <-. split; [reflexivity|]. split; [reflexivity|].
    left; assumption.
  - assert (Hk : Forall (fun a => known_option (fst a) = true) args).
    { apply Forall_forall. intros a Ha.
      destruct (known_option (fst a)) eqn:Ek; [reflexivity|].
      exfalso. apply Hall. apply Exists_exists. exists a. auto. }
    destruct (parse_options_known env Hk (initial_options env) start) as [o [Hp Hg]].
    change (opt_geom (initial_options env)) with DEFAULT_GEOM in Hg.
    unfold main, bind in E. rewrite Hp in E.
    destruct (strchr (geom_after args DEFAULT_GEOM) "x") as [t|] eqn:Hx.
    + right. split; [|split; [assumption|discriminate]].
      eapply exits_with_render; [|exact E].
      rewrite Hg, Hx. discriminate.
    + left. rewrite render_no_separator in E by (rewrite Hg; assumption).
      injection E as <- <-. split; [reflexivity|]. split; [reflexivity|].
      right. split; [assumption|]. split; reflexivity.
Qed.
Lemma silent_ret {A} (a : A) : silent (ret (D := D) a).
Proof. intros w b w' E. injection E as _ <-. reflexivity. Qed.

Lemma silent_emit (op : cairo_op D) : silent (emit op).
Proof. intros w b w' E. injection E as _ <-. reflexivity. Qed.

Lemma silent_history : silent (history (D := D)).
Proof. intros w b w' E. injection E as _ <-. reflexivity. Qed.

Lemma silent_stop {A} (o : outcome A) : silent (fun w : world D => (o, w)).
Proof. intros w b w' E. injection E as _ <-. reflexivity. Qed.

Lemma silent_bind {A B} (c : prog D A) (k : A -> prog D B) :
  silent c -> (forall a, silent (k a)) -> silent (bind c k).
Proof.
  intros Hc Hk w b w' E. apply bind_done in E. destruct E as (a & w1 & E1 & E2).
  rewrite (Hk _ _ _ _ E2). eapply Hc. eassumption.
Qed.

Lemma silent_if {A} (b : bool) (c1 c2 : prog D A) :
  silent c1 -> silent c2 -> silent (if b then c1 else c2).
Proof. destruct b; auto. Qed.

Lemma silent_for_each {A} (l : list A) (body : A -> prog D unit) :
  (forall a, silent (body a)) -> silent (for_each l body).
Proof.
  intros Hb. induction l as [|a l IH]; simpl.
  - apply silent_ret.
  - apply silent_bind; auto.
Qed.

Ltac silent_steps :=
  repeat lazymatch goal with
    | |- silent (bind _ _) => apply silent_bind; [|intros]
    | |- silent (if _ then _ else _) => apply silent_if
    | |- silent (for_each _ _) => apply silent_for_each; intros
    | |- silent (emit _) => apply silent_emit
    | |- silent (ret _) => apply silent_ret
    | |- silent history => apply silent_history
    | |- silent (fun w => (Abort, w)) => apply silent_stop
    | |- silent (aligned_text _ _ _ _ _) => unfold aligned_text
    | |- silent (target_eye _ _ _) => unfold target_eye
    | |- silent (put _ _ _) => unfold put
    | |- silent (fish_delete _) => unfold fish_delete
    end.

Lemma silent_check_status : silent (check_status env).
Proof.
  unfold check_status. apply silent_bind; [apply silent_history|].
  intros h. destruct (cairo_status env h).
  - intros w b w' E. unfold bind, eprint, exit in E. discriminate.
  - apply silent_ret.
Qed.

Lemma silent_fish_new : silent (fish_new env).
Proof.
  unfold fish_new. apply silent_bind; [apply silent_emit|]. intros _.
  destruct (png_load env FISH_IMAGE) as [msg|[[[ulx uly] lrx] lry]].
  - intros w b w' E. unfold bind, eprint, exit in E. discriminate.
  - silent_steps.
Qed.

Lemma silent_draw_labels (fuel : nat) (width height margin rs iw ih : D) :
  silent (draw_labels env fuel width height margin rs iw ih).
Proof.
  unfold draw_labels. apply silent_bind.
  - destruct (spacing_caption fuel rs); apply silent_stop.
  - intros t. silent_steps.
Qed.

Lemma check_status_done (w : world D) (a : unit) (w' : world D) :
  check_status env w = (Done a, w') -> w' = w /\ cairo_status env (canvas w) = None.
Proof.
  unfold check_status, bind, history.
  destruct (cairo_status env (canvas w)); intros E.
  - unfold eprint, exit in E. discriminate.
  - injection E as _ <-. split; reflexivity.
Qed.

Lemma brackets_bind {A B} (c : prog D A) (k : A -> prog D B) tail z :
  grows c -> silent c -> (forall a, brackets (k a) [] tail z) ->
  brackets (bind c k) [] tail z.
Proof.
  intros Hg Hs Hk w b w' E. apply bind_done in E. destruct E as (a & w1 & E1 & E2).
  destruct (Hk _ _ _ _ E2) as (Hz & Hc & ops2 & Hops).
  destruct (Hg w) as [ops1 Hops1]. rewrite E1 in Hops1. simpl in Hops1.
  split; [assumption|]. split.
  - rewrite Hc. eapply Hs. eassumption.
  - exists (ops1 ++ ops2)%list. rewrite Hops, Hops1. simpl.
    rewrite <- !app_assoc. reflexivity.
Qed.

Lemma brackets_emit {B} (op : cairo_op D) (k : unit -> prog D B) head tail z :
  brackets (k tt) head tail z -> brackets (bind (emit op) k) (op :: head) tail z.
Proof.
  intros Hk w b w' E. unfold bind, emit in E.
  destruct (Hk _ _ _ E) as (Hz & Hc & ops & Hops).
  split; [assumption|]. split; [assumption|].
  exists ops. rewrite Hops. simpl. rewrite <- app_assoc. reflexivity.
Qed.

(** The end of [main]: the page is emitted, Cairo asked for its
    status, the context and the surface released. *)
Lemma brackets_finish :
  brackets (emit show_page ;; check_status env ;; emit destroy ;;
            emit (surface_destroy "surface") ;; ret 0%Z)
    [] [show_page; destroy; surface_destroy "surface"] 0%Z.
Proof.
  intros w a w' E. unfold bind at 1 in E. unfold emit at 1 in E.
  apply bind_done in E. destruct E as ([] & w1 & E1 & E2).
  apply check_status_done in E1. destruct E1 as [-> _].
  unfold bind, emit, ret in E2. simpl in E2. injection E2 as <- <-.
  split; [reflexivity|]. split; [reflexivity|].
  exists []. simpl. rewrite <- !app_assoc. reflexivity.
Qed.

Lemma grows_background (bg : bool) (width height margin : D) :
  grows (draw_background bg width height margin).
Proof.
  unfold draw_background. apply grows_if; [|apply grows_ret].
  apply grows_bind; [apply grows_emit|intros _].
  apply grows_bind; [apply grows_emit|intros _]. apply grows_emit.
Qed.

Lemma brackets_render (fuel : nat) (o : options D) (t : string) :
  strchr (opt_geom o) "x" = Some t ->
  brackets (render env fuel o)
    [pdf_surface_create (opt_fname o) (inch_pt (atof env (opt_geom o)))
       (inch_pt (atof env (next_char t))); create]
    [show_page; destroy; surface_destroy "surface"] 0%Z.
Proof.
  intros Hx. unfold render. rewrite Hx. cbv zeta.
  apply brackets_emit. apply brackets_emit.
  repeat lazymatch goal with
    | |- brackets (bind (emit show_page) _) _ _ _ => fail
    | |- brackets (bind (emit _) _) _ _ _ =>
        apply brackets_bind; [apply grows_emit|apply silent_emit|intros]
    | |- brackets (bind (check_status _) _) _ _ _ =>
        apply brackets_bind;
        [apply grows_check_status|apply silent_check_status|intros]
    | |- brackets (bind (draw_background _ _ _ _) _) _ _ _ =>
        apply brackets_bind;
        [apply grows_background
        |unfold draw_background; silent_steps|intros]
    | |- brackets (bind (draw_disks _ _ _ _ _ _) _) _ _ _ =>
        apply brackets_bind;
        [apply grows_draw_disks|unfold draw_disks; silent_steps|intros]
    | |- brackets (bind (draw_rings _ _ _ _ _ _) _) _ _ _ =>
        apply brackets_bind;
        [apply grows_draw_rings|unfold draw_rings, draw_ring; silent_steps|intros]
    | |- brackets (bind (draw_ring_numbers _ _ _ _ _ _ _) _) _ _ _ =>
        apply brackets_bind;
        [apply grows_draw_ring_numbers
        |unfold draw_ring_numbers, draw_ring_number; silent_steps|intros]
    | |- brackets (bind (draw_eyes _ _ _ _ _) _) _ _ _ =>
        apply brackets_bind;
        [apply grows_draw_eyes|unfold draw_eyes; silent_steps|intros]
    | |- brackets (bind (draw_koi _ _ _ _) _) _ _ _ =>
        apply brackets_bind;
        [apply grows_draw_koi
        |unfold draw_koi; apply silent_bind;
         [apply silent_fish_new|intros; silent_steps]|intros]
    | |- brackets (bind (draw_labels _ _ _ _ _ _ _ _) _) _ _ _ =>
        apply brackets_bind;
        [apply grows_draw_labels|apply silent_draw_labels|intros]
    end.
  apply brackets_finish.
Qed.

Lemma setting_step {A} (f : string -> A) (d : A) (b : bool) (optarg : string)
    (x : option string) :
  setting f (if b then f optarg else d) x
  = setting f d (match x with
                 | Some a => Some a
                 | None => if b then Some optarg else None
                 end).
Proof. destruct x, b; reflexivity. Qed.

Lemma set_option_fields (o : options D) (opt : ascii) (optarg : string) (w : world D) :
  known_option opt = true ->
  set_option env o opt optarg w =
    (Done {| opt_geom := if Ascii.eqb opt "s" then optarg else opt_geom o;
             opt_margin := if Ascii.eqb opt "m" then atof env optarg else opt_margin o;
             opt_fname := if Ascii.eqb opt "o" then optarg else opt_fname o;
             opt_rings := if Ascii.eqb opt "r" then atoi env optarg else opt_rings o;
             opt_irings := if Ascii.eqb opt "I" then atoi env optarg else opt_irings o;
             opt_orings := if Ascii.eqb opt "O" then atoi env optarg else opt_orings o;
             opt_linew := if Ascii.eqb opt "l" then atof env optarg else opt_linew o;
             opt_bg := Ascii.eqb opt "b" || opt_bg o |}, w).
Proof.
  unfold known_option, known_options. simpl existsb.
  destruct o as [geom margin fname rings irings orings linew bg].
  intros Hk.
  repeat lazymatch type of Hk with
         | (Ascii.eqb opt ?c || _)%bool = true =>
             let E := fresh "E" in
             destruct (Ascii.eqb opt c) eqn:E;
             [apply Ascii.eqb_eq in E; subst opt; reflexivity|simpl in Hk]
         end.
  discriminate.
Qed.

Lemma parse_options_fields (args : list (ascii * string)) :
  Forall (fun a => known_option (fst a) = true) args ->
  forall o w,
    parse_options env args o w =
      (Done {| opt_geom := setting (fun a => a) (opt_geom o) (last_arg "s" args);
               opt_margin := setting (atof env) (opt_margin o) (last_arg "m" args);
               opt_fname := setting (fun a => a) (opt_fname o) (last_arg "o" args);
               opt_rings := setting (atoi env) (opt_rings o) (last_arg "r" args);
               opt_irings := setting (atoi env) (opt_irings o) (last_arg "I" args);
               opt_orings := setting (atoi env) (opt_orings o) (last_arg "O" args);
               opt_linew := setting (atof env) (opt_linew o) (last_arg "l" args);
               opt_bg := existsb (fun a => Ascii.eqb (fst a) "b") args || opt_bg o |},
       w).
Proof.
  induction 1 as [|[opt optarg] args Hk _ IH]; intros o w.
  - destruct o. reflexivity.
  - simpl in Hk. simpl parse_options. unfold bind.
    rewrite set_option_fields by exact Hk. rewrite IH.
    cbn [opt_geom opt_margin opt_fname opt_rings opt_irings opt_orings opt_linew
         opt_bg last_arg existsb fst].
    rewrite (setting_step (fun a => a)), !(setting_step (atof env)),
      (setting_step (fun a => a)), !(setting_step (atoi env)).
    rewrite orb_assoc, (orb_comm (existsb _ args)). reflexivity.
Qed.

(** When [main] returns, it returns 0 and nothing has been written
    to [cerr]; every option was a known one and the size argument has
    an ['x'].  The first two Cairo calls create the surface and the
    context: the file is the one named with the last [-o], or
    [target.pdf]; the page width is what [atof] reads at the start of
    the size argument and the height what it reads after the first
    ['x'], both times 72.  The last three calls emit the page and
    release the context and the surface. *)
Theorem successful_run (fuel : nat) (args : list (ascii * string))
    (z : int) (w : world D) :
  main env fuel args start = (Done z, w) ->
  z = 0 /\ cerr w = EmptyString /\
  Forall (fun a => known_option (fst a) = true) args /\
  exists t ops,
    strchr (geom_after args DEFAULT_GEOM) "x" = Some t /\
    canvas w =
      ([pdf_surface_create (setting (fun a => a) DEFAULT_FNAME (last_arg "o" args))
          (inch_pt (atof env (geom_after args DEFAULT_GEOM)))
          (inch_pt (atof env (next_char t)));
        create]
       ++ ops ++ [show_page; destroy; surface_destroy "surface"])%list.
Proof.
  intros E.
  destruct (Exists_dec (fun a => known_option (fst a) = false) args) as [Hex|Hall].
  { intros a. destruct (known_option (fst a)); [right; discriminate|left; reflexivity]. }
  { unfold main, bind in E. rewrite parse_options_unknown in E by assumption.
    discriminate. }
  assert (Hk : Forall (fun a => known_option (fst a) = true) args).
  { apply Forall_forall. intros a Ha.
    destruct (known_option (fst a)) eqn:Ek; [reflexivity|].
    exfalso. apply Hall. apply Exists_exists. exists a. auto. }
  destruct (parse_options_known env Hk (initial_options env) start) as [o [Hp Hg]].
  change (opt_geom (initial_options env)) with DEFAULT_GEOM in Hg.
  assert (Hf : opt_fname o = setting (fun a => a) DEFAULT_FNAME (last_arg "o" args)).
  { rewrite parse_options_fields in Hp by exact Hk. injection Hp as <-. reflexivity. }
  unfold main, bind in E. rewrite Hp in E.
  destruct (strchr (geom_after args DEFAULT_GEOM) "x") as [t|] eqn:Hx.
  2:{ rewrite render_no_separator in E by (rewrite Hg; assumption). discriminate. }
  assert (Hx' : strchr (opt_geom o) "x" = Some t) by (rewrite Hg; exact Hx).
  destruct (@brackets_render fuel o t Hx' _ _ _ E) as (Hz & Hc & ops & Hops).
  split; [assumption|]. split; [assumption|]. split; [assumption|].
  exists t, ops. split; [reflexivity|].
  rewrite Hops, Hf, Hg. reflexivity.
Qed.

(** Every variable an option sets ends with the value of the last
    occurrence of its flag, or keeps its initial value when the flag
    is not given; [opt_bg] ends true when [-b] is given and otherwise
    keeps the value it started with. *)
Theorem options_last_wins (args : list (ascii * string)) (w : world D) :
  Forall (fun a => known_option (fst a) = true) args ->
  exists o,
    parse_options env args (initial_options env) w = (Done o, w) /\
    opt_geom o = setting (fun a => a) DEFAULT_GEOM (last_arg "s" args) /\
    opt_margin o = setting (atof env) DEFAULT_MARGIN (last_arg "m" args) /\
    opt_fname o = setting (fun a => a) DEFAULT_FNAME (last_arg "o" args) /\
    opt_rings o = setting (atoi env) DEFAULT_RINGS (last_arg "r" args) /\
    opt_irings o = setting (atoi env) DEFAULT_IRINGS (last_arg "I" args) /\
    opt_orings o = setting (atoi env) DEFAULT_ORINGS (last_arg "O" args) /\
    opt_linew o = setting (atof env) DEFAULT_LINEW (last_arg "l" args) /\
    opt_bg o = (existsb (fun a => Ascii.eqb (fst a) "b") args
                || opt_bg_indeterminate env)%bool.
Proof.
  intros Hk. eexists. split; [apply parse_options_fields; exact Hk|].
  repeat split.
Qed.

(** When Cairo reports an error once the surface and the context are
    created, the program writes [Operation failed: ] and the error to
    [cerr] and exits with status 1 before it draws anything. *)
Theorem surface_failure_exit (fuel : nat) (args : list (ascii * string))
    (msg : string) :
  Forall (fun a => known_option (fst a) = true) args ->
  strchr (geom_after args DEFAULT_GEOM) "x" <> None ->
  (forall fname width height,
     cairo_status env [pdf_surface_create fname width height; create] = Some msg) ->
  exists fname width height,
    main env fuel args start =
      (Exit 1, {| canvas := [pdf_surface_create fname width height; create];
                  cerr := ("Operation failed: " ++ msg ++ nl)%string |}).
Proof.
  intros Hk Hx Hbad.
  destruct (parse_options_known env Hk (initial_options env) start) as [o [Hp Hg]].
  change (opt_geom (initial_options env)) with DEFAULT_GEOM in Hg.
  unfold main, bind at 1. rewrite Hp. unfold render. rewrite Hg.
  destruct (strchr (geom_after args DEFAULT_GEOM) "x") as [s|]; [|contradiction].
  cbv zeta. eexists. eexists. eexists.
  unfold bind at 1. unfold emit at 1. unfold bind at 1. unfold emit at 1.
  unfold bind at 1. unfold check_status, bind at 1. unfold history. 
  cbn [canvas start app]. rewrite Hbad. reflexivity.
Qed.
End Outcomes.

Lemma exit_status_meaning_witness :
  let r := main (D := float) no_koi_env 0 [] start in
  r = (Exit 1, snd r) /\
  ((1 = 2 /\ canvas (snd r) = [] /\
    (Exists (fun a : ascii * string => known_option (fst a) = false) [] \/
     (Forall (fun a : ascii * string => known_option (fst a) = true) [] /\
      strchr (geom_after [] DEFAULT_GEOM) "x" = None /\
      cerr (snd r) = usage_text))) \/
   (1 = 1 /\
    Forall (fun a : ascii * string => known_option (fst a) = true) [] /\
    strchr (geom_after [] DEFAULT_GEOM) "x" <> None)).
Proof.
  cbv zeta.
  assert (E : main (D := float) no_koi_env 0 [] start
              = (Exit 1, snd (main (D := float) no_koi_env 0 [] start)))
    by (vm_compute; reflexivity).
  split; [exact E|].
  exact (@exit_status_meaning float b64_double no_koi_env 0%nat [] 1 _ E).
Defined.

Lemma successful_run_witness :
  let r := main (D := float) (plain_env false) 100 [] start in
  r = (Done 0, snd r) /\
  (0 = 0 /\ cerr (snd r) = EmptyString /\
   Forall (fun a : ascii * string => known_option (fst a) = true) [] /\
   exists t ops,
     strchr (geom_after [] DEFAULT_GEOM) "x" = Some t /\
     canvas (snd r) =
       [pdf_surface_create (setting (fun a => a) DEFAULT_FNAME (last_arg "o" []))
          (inch_pt (atof (plain_env (D := float) false) (geom_after [] DEFAULT_GEOM)))
          (inch_pt (atof (plain_env (D := float) false) (next_char t)));
        create]
       ++ ops ++ [show_page; destroy; surface_destroy "surface"]).
Proof.
  cbv zeta.
  assert (E : main (D := float) (plain_env false) 100 [] start
              = (Done 0, snd (main (D := float) (plain_env false) 100 [] start)))
    by (vm_compute; reflexivity).
  split; [exact E|].
  exact (@successful_run float b64_double (plain_env false) 100%nat [] 0 _ E).
Defined.

Lemma options_last_wins_witness :
  let env := plain_env (D := float) false in
  let args := [("s"%char, "11x17"%string); ("r"%char, "10"%string);
               ("s"%char, "17x11"%string); ("b"%char, EmptyString)] in
  Forall (fun a => known_option (fst a) = true) args /\
  exists o,
    parse_options env args (initial_options env) start = (Done o, start) /\
    opt_geom o = setting (fun a => a) DEFAULT_GEOM (last_arg "s" args) /\
    opt_margin o = setting (atof env) DEFAULT_MARGIN (last_arg "m" args) /\
    opt_fname o = setting (fun a => a) DEFAULT_FNAME (last_arg "o" args) /\
    opt_rings o = setting (atoi env) DEFAULT_RINGS (last_arg "r" args) /\
    opt_irings o = setting (atoi env) DEFAULT_IRINGS (last_arg "I" args) /\
    opt_orings o = setting (atoi env) DEFAULT_ORINGS (last_arg "O" args) /\
    opt_linew o = setting (atof env) DEFAULT_LINEW (last_arg "l" args) /\
    opt_bg o = (existsb (fun a => Ascii.eqb (fst a) "b") args
                || opt_bg_indeterminate env)%bool.
Proof.
  intros env args.
  assert (Hk : Forall (fun a => known_option (fst a) = true) args)
    by (repeat constructor).
  split; [exact Hk|].
  exact (@options_last_wins float b64_double env args start Hk).
Defined.

Lemma surface_failure_exit_witness :
  let env := failing_surface_env (D := float) in
  let msg := "error while writing to output stream"%string in
  (Forall (fun a : ascii * string => known_option (fst a) = true) [] /\
   strchr (geom_after [] DEFAULT_GEOM) "x" <> None /\
   (forall fname width height,
      cairo_status env [pdf_surface_create fname width height; create] = Some msg)) /\
  exists fname width height,
    main env 0 [] start =
      (Exit 1, {| canvas := [pdf_surface_create fname width height; create];
                  cerr := ("Operation failed: " ++ msg ++ nl)%string |}).
Proof.
  intros env msg.
  assert (Hk : Forall (fun a : ascii * string => known_option (fst a) = true) [])
    by constructor.
  assert (Hx : strchr (geom_after [] DEFAULT_GEOM) "x" <> None) by discriminate.
  assert (Hbad : forall fname width height,
            cairo_status env [pdf_surface_create fname width height; create]
            = Some msg) by reflexivity.
  split; [repeat split; assumption|].
  exact (@surface_failure_exit float b64_double env 0%nat [] msg Hk Hx Hbad).
Defined.
